(** * text_analyzer.py: word, character and sentence statistics

    A shallow embedding of [analyze_text] and [format_report] from
    [src/PY/text_analyzer.py], together with the part of the Python
    runtime they rely on: the [re] scanning functions ([findall], [sub],
    [split]) for the three patterns of the program, [str.lower],
    [str.strip], [collections.Counter] and [Counter.most_common].

    A Python [str] is a sequence of Unicode code points.  The ASCII range
    is modelled exactly; the classification and the lowercase mapping of
    the code points from 128 on come from the Unicode database of the
    interpreter and are parameters of the development. *)

From Stdlib Require Import String Ascii DecimalString.
From Stdlib Require DecimalNat DecimalFacts.
From Stdlib Require Import List NArith Bool Arith Lia Permutation Sorted.
Import ListNotations.
Local Open Scope list_scope.

(** ** Code points and strings *)

Definition char := N.
Definition str := list char.

Definition ord (a : ascii) : char := N_of_ascii a.

Fixpoint lit (s : string) : str :=
  match s with
  | EmptyString => []
  | String a s' => ord a :: lit s'
  end.

Definition between (lo hi c : N) : bool := (lo <=? c)%N && (c <=? hi)%N.

(** [0-9A-Za-z] *)
Definition ascii_isalnum (c : char) : bool :=
  between 48 57 c || between 65 90 c || between 97 122 c.

(** The ASCII code points for which [str.isspace] holds: TAB, LF, VT, FF,
    CR, the four separators FS, GS, RS, US, and the space. *)
Definition ascii_isspace (c : char) : bool :=
  between 9 13 c || between 28 32 c.

Definition ascii_lower (c : char) : char :=
  if between 65 90 c then (c + 32)%N else c.

Definition is_ascii (c : char) : bool := (c <? 128)%N.

Definition APOSTROPHE : char := 39%N.
Definition QUOTATION : char := 34%N.
Definition HYPHEN : char := 45%N.
Definition UNDERSCORE : char := 95%N.
Definition NEWLINE : char := 10%N.

(** ** The Latin-1 supplement

    The Unicode database for the code points 128 to 255: the letters and
    digits, the two spaces (NEL and the no-break space) and the lowercase
    mapping of the capital letters.  The code points from 256 on are left
    without class and case here. *)

Definition latin1_isalnum (c : char) : bool :=
  (c =? 170)%N || (c =? 178)%N || (c =? 179)%N || (c =? 181)%N
  || (c =? 185)%N || (c =? 186)%N || between 188 190 c
  || (between 192 255 c && negb (c =? 215)%N && negb (c =? 247)%N).

Definition latin1_isspace (c : char) : bool := (c =? 133)%N || (c =? 160)%N.

Definition latin1_lower (before : str) (c : char) (after : str) : str :=
  if between 192 222 c && negb (c =? 215)%N then [(c + 32)%N] else [c].

(** ** A letterlike symbol

    U+2102, the double-struck capital C, is a letter of the category Lu:
    it is alphanumeric and uppercase, and it has no lowercase form.  The
    tables below add it to the Latin-1 supplement. *)

Definition DOUBLE_STRUCK_C : char := 8450%N.

Definition letterlike_isalnum (c : char) : bool :=
  latin1_isalnum c || (c =? DOUBLE_STRUCK_C)%N.

Definition letterlike_isupper (c : char) : bool :=
  (between 192 222 c && negb (c =? 215)%N) || (c =? DOUBLE_STRUCK_C)%N.

(** ** A backtracking matcher for the patterns of the program

    The three patterns, [\b[\w'-]+\b], [\s+] and [[.!?]+], are sequences
    of two kinds of node: the zero-width word boundary and a greedy
    repetition (one or more) of a character class. *)

Inductive node : Type :=
| Boundary : node
| ClassPlus : (char -> bool) -> node.

Definition pattern := list node.

(** The result of a match attempt: the matched text and what follows. *)
Definition match_result := option (str * str).

(** Greedy [+]: take one character of the class, then first try to take
    more; when that fails, go on with the rest of the pattern, [k]. *)
Fixpoint class_plus (p : char -> bool)
    (k : option char -> str -> match_result) (rest : str) : match_result :=
  match rest with
  | [] => None
  | c :: r =>
      if p c then
        match class_plus p k r with
        | Some (m, tl) => Some (c :: m, tl)
        | None =>
            match k (Some c) r with
            | Some (m, tl) => Some (c :: m, tl)
            | None => None
            end
        end
      else None
  end.

(** Case analysis on the comparisons of code points. *)
Ltac code_point_cases :=
  repeat match goal with
    | |- context [(?a <=? ?b)%N] => destruct (N.leb_spec a b)
    | |- context [(?a <? ?b)%N] => destruct (N.ltb_spec a b)
    | |- context [(?a =? ?b)%N] => destruct (N.eqb_spec a b)
    | H : context [(?a <=? ?b)%N] |- _ => destruct (N.leb_spec a b)
    | H : context [(?a <? ?b)%N] |- _ => destruct (N.ltb_spec a b)
    | H : context [(?a =? ?b)%N] |- _ => destruct (N.eqb_spec a b)
    end;
  simpl in *; try reflexivity; try discriminate; try lia.

Section TextAnalyzer.

(** The Unicode database, for the code points from 128 on:
    alphanumeric, whitespace, and the lowercase expansion of a code
    point (one to three code points; it may depend on what precedes and
    follows, as for the Greek capital sigma). *)
Variable uni_isalnum : char -> bool.
Variable uni_isspace : char -> bool.
Variable uni_lower : str -> char -> str -> str.

(** The uppercase letters among the code points from 128 on. *)
Variable uni_isupper : char -> bool.

Definition isalnum (c : char) : bool :=
  if is_ascii c then ascii_isalnum c else uni_isalnum c.

Definition isspace (c : char) : bool :=
  if is_ascii c then ascii_isspace c else uni_isspace c.

(** [\w] *)
Definition is_word (c : char) : bool := isalnum c || (c =? UNDERSCORE)%N.

(** [[\w'-]] *)
Definition word_class (c : char) : bool :=
  is_word c || (c =? APOSTROPHE)%N || (c =? HYPHEN)%N.

(** [[.!?]] *)
Definition terminator (c : char) : bool :=
  (c =? 46)%N || (c =? 33)%N || (c =? 63)%N.

Definition opt_word (o : option char) : bool :=
  match o with
  | Some c => is_word c
  | None => false
  end.

(** [\b]: exactly one of the two neighbours is a word character; the
    outside of the string counts as a non-word character. *)
Definition at_boundary (prev next : option char) : bool :=
  xorb (opt_word prev) (opt_word next).

Fixpoint match_here (pat : pattern) (prev : option char) (rest : str)
    : match_result :=
  match pat with
  | [] => Some ([], rest)
  | Boundary :: pat' =>
      if at_boundary prev (hd_error rest) then match_here pat' prev rest
      else None
  | ClassPlus p :: pat' => class_plus p (match_here pat') rest
  end.

Definition word_pattern : pattern :=
  [Boundary; ClassPlus word_class; Boundary].
Definition space_pattern : pattern := [ClassPlus isspace].
Definition terminator_pattern : pattern := [ClassPlus terminator].

(** *** Scanning

    All of [re.findall], [re.sub] and [re.split] walk the text from
    left to right: at the current position they try the pattern; after a
    match they go on where it ended, otherwise one character further.
    The walk yields the matches, each with the unmatched text before
    it, and the unmatched text after the last match.  [fuel] bounds the
    number of steps; [None] is the walk that did not finish.  The three
    patterns match at least one character, so what [re] does after an
    empty match plays no part. *)

(** The character before the position reached after [m]. *)
Fixpoint last_char (prev : option char) (m : str) : option char :=
  match m with
  | [] => prev
  | c :: m' => last_char (Some c) m'
  end.

Definition pieces := (list (str * str) * str)%type.

Definition push_gap (c : char) (ps : pieces) : pieces :=
  match ps with
  | ([], tl) => ([], c :: tl)
  | ((g, m) :: ps', tl) => ((c :: g, m) :: ps', tl)
  end.

Fixpoint scan (pat : pattern) (fuel : nat) (prev : option char)
    (rest : str) : option pieces :=
  match fuel with
  | O => None
  | S fuel' =>
      match match_here pat prev rest with
      | Some (m, rest') =>
          match scan pat fuel' (last_char prev m) rest' with
          | Some (ps, tl) => Some (([], m) :: ps, tl)
          | None => None
          end
      | None =>
          match rest with
          | [] => Some ([], [])
          | c :: r =>
              match scan pat fuel' (Some c) r with
              | Some ps => Some (push_gap c ps)
              | None => None
              end
          end
      end
  end.

Definition finditer (pat : pattern) (text : str) : option pieces :=
  scan pat (S (length text)) None text.

Definition re_findall (pat : pattern) (text : str) : option (list str) :=
  match finditer pat text with
  | Some (ps, _) => Some (map snd ps)
  | None => None
  end.

Definition re_sub (pat : pattern) (repl text : str) : option str :=
  match finditer pat text with
  | Some (ps, tl) => Some (concat (map (fun gm => fst gm ++ repl) ps) ++ tl)
  | None => None
  end.

Definition re_split (pat : pattern) (text : str) : option (list str) :=
  match finditer pat text with
  | Some (ps, tl) => Some (map fst ps ++ [tl])
  | None => None
  end.

(** ** String methods *)

(** [str.lower]: every code point is replaced by its lowercase
    expansion. *)
Definition lower_char (before : str) (c : char) (after : str) : str :=
  if is_ascii c then [ascii_lower c] else uni_lower before c after.

Fixpoint lower_from (before s : str) : str :=
  match s with
  | [] => []
  | c :: r => lower_char before c r ++ lower_from (before ++ [c]) r
  end.

Definition str_lower (s : str) : str := lower_from [] s.

Fixpoint lstrip (p : char -> bool) (s : str) : str :=
  match s with
  | [] => []
  | c :: r => if p c then lstrip p r else s
  end.

Definition rstrip (p : char -> bool) (s : str) : str :=
  rev (lstrip p (rev s)).

(** [s.strip(chars)], with [chars] given as a predicate; [s.strip()] is
    [strip isspace s]. *)
Definition strip (p : char -> bool) (s : str) : str :=
  rstrip p (lstrip p s).

(** The argument of [strip] in the program: an apostrophe and a double
    quote. *)
Definition is_quote (c : char) : bool :=
  (c =? APOSTROPHE)%N || (c =? QUOTATION)%N.

(** Truth value of a string or a list. *)
Definition truthy {A : Type} (l : list A) : bool :=
  match l with
  | [] => false
  | _ :: _ => true
  end.

(** ** Counter *)

Definition str_eqb (a b : str) : bool :=
  if list_eq_dec N.eq_dec a b then true else false.

(** A [Counter] is a [dict]: its items are kept in the order in which
    the keys were first inserted. *)
Definition counter := list (str * nat).

Fixpoint counter_add (w : str) (cnt : counter) : counter :=
  match cnt with
  | [] => [(w, 1)]
  | (k, n) :: r =>
      if str_eqb k w then (k, S n) :: r else (k, n) :: counter_add w r
  end.

Definition Counter (ws : list str) : counter :=
  fold_left (fun cnt w => counter_add w cnt) ws [].

(** [most_common(n)] is [heapq.nlargest(n, items, key=count)], that is
    [sorted(items, key=count, reverse=True)[:n]]: a stable sort, items
    with the same count stay in the order of the dictionary. *)
Fixpoint insert_desc (x : str * nat) (l : counter) : counter :=
  match l with
  | [] => [x]
  | y :: r => if snd x <? snd y then y :: insert_desc x r else x :: l
  end.

Fixpoint sorted_desc (l : counter) : counter :=
  match l with
  | [] => []
  | x :: r => insert_desc x (sorted_desc r)
  end.

Definition most_common (n : nat) (cnt : counter) : counter :=
  firstn n (sorted_desc cnt).

(** ** analyze_text *)

Record stats : Type := mkStats {
  words : nat;
  characters : nat;
  characters_no_spaces : nat;
  sentences : nat;
  most_common_words : list (str * nat)
}.

Definition bind {A B : Type} (o : option A) (f : A -> option B) : option B :=
  match o with
  | Some a => f a
  | None => None
  end.

Notation "x <- e ;; k" := (bind e (fun x => k))
  (at level 61, e at next level, right associativity).

Definition normalize (w : str) : str := strip is_quote (str_lower w).

Definition analyze_text (text : str) : option stats :=
  found <- re_findall word_pattern text ;;
  let num_words := length found in
  let num_chars := length text in
  squeezed <- re_sub space_pattern [] text ;;
  let num_chars_no_spaces := length squeezed in
  parts <- re_split terminator_pattern text ;;
  let sents := filter (fun s => truthy (strip isspace s)) parts in
  let num_sentences := length sents in
  let top := most_common 5 (Counter (map normalize found)) in
  Some (mkStats num_words num_chars num_chars_no_spaces num_sentences top).

(** ** format_report *)

(** [str(n)] for a non-negative integer. *)
Definition str_of_nat (n : nat) : str :=
  lit (NilZero.string_of_uint (Nat.to_uint n)).

(** [sep.join(items)] *)
Definition join (sep : str) (items : list str) : str :=
  match items with
  | [] => []
  | x :: r => x ++ concat (map (fun y => sep ++ y) r)
  end.

Definition format_item (wc : str * nat) : str :=
  fst wc ++ lit "(" ++ str_of_nat (snd wc) ++ lit ")".

Definition format_report (st : stats) : str :=
  let lines :=
    [ lit "Words: " ++ str_of_nat (words st);
      lit "Characters (including spaces): " ++ str_of_nat (characters st);
      lit "Characters (no spaces): " ++ str_of_nat (characters_no_spaces st);
      lit "Sentences: " ++ str_of_nat (sentences st) ] in
  let lines :=
    if truthy (most_common_words st)
    then lines ++ [ lit "Top words: "
                      ++ join (lit ", ") (map format_item (most_common_words st)) ]
    else lines in
  join [NEWLINE] lines.

(** ** Notions used in the statements *)

(** A continuation that only tests the position it is given. *)
Definition guard (t : option char -> str -> bool)
    : option char -> str -> match_result :=
  fun prev r => if t prev r then Some ([], r) else None.

(** What a candidate match of [p+] followed by the test [t] is. *)
Definition candidate (p : char -> bool) (t : option char -> str -> bool)
    (rest m tl : str) : Prop :=
  rest = m ++ tl /\ m <> [] /\ forallb p m = true
  /\ t (last_char None m) tl = true.

Fixpoint take_while (p : char -> bool) (s : str) : str :=
  match s with
  | [] => []
  | c :: r => if p c then c :: take_while p r else []
  end.

Fixpoint drop_while (p : char -> bool) (s : str) : str :=
  match s with
  | [] => []
  | c :: r => if p c then drop_while p r else s
  end.

(** The word pattern: a boundary, then the longest run of the class that
    ends at a boundary. *)
Definition ends_at_boundary (prev : option char) (r : str) : bool :=
  at_boundary prev (hd_error r).

(** Every match of the three patterns is a non-empty prefix of the text
    it was tried on. *)
Definition consuming (pat : pattern) : Prop :=
  forall prev rest m tl,
    match_here pat prev rest = Some (m, tl) -> rest = m ++ tl /\ m <> [].

(** The text that a walk has covered: gaps and matches in turn, then
    the tail. *)
Definition unparse (ps : pieces) : str :=
  concat (map (fun gm => fst gm ++ snd gm) (fst ps)) ++ snd ps.

(** [s] has no character of the class [p]. *)
Definition free_of (p : char -> bool) (s : str) : Prop :=
  forallb (fun c => negb (p c)) s = true.

Definition starts_with (p : char -> bool) (s : str) : bool :=
  match s with
  | [] => false
  | c :: _ => p c
  end.

(** [split_on p text segs]: [segs] are the segments of [text] between
    the maximal runs of characters of the class [p].  A separator is a
    non-empty run of the class; it is maximal because the segment
    before it has no character of the class and what follows it does not
    start with one. *)
Inductive split_on (p : char -> bool) : str -> list str -> Prop :=
| split_end : forall seg, free_of p seg -> split_on p seg [seg]
| split_sep : forall seg sep rest segs,
    free_of p seg ->
    sep <> [] -> forallb p sep = true ->
    starts_with p rest = false ->
    split_on p rest segs ->
    split_on p (seg ++ sep ++ rest) (seg :: segs).

(** [s] is empty or all whitespace: [s.strip()] is the empty string. *)
Definition blank (s : str) : bool := forallb isspace s.

(** *** Positions

    A position is a number of characters from the start of the text:
    [0] is before the first character, [length text] after the last. *)

Definition prev_at (text : str) (pos : nat) : option char :=
  match pos with
  | 0 => None
  | S k => nth_error text k
  end.

(** There is a word boundary at [pos]. *)
Definition boundary_at (text : str) (pos : nat) : bool :=
  at_boundary (prev_at text pos) (nth_error text pos).

(** The character at index [k] is a word character, an apostrophe or a
    hyphen. *)
Definition class_at (text : str) (k : nat) : bool :=
  match nth_error text k with
  | Some c => word_class c
  | None => false
  end.

Definition word_at (text : str) (k : nat) : bool :=
  opt_word (nth_error text k).

(** The slice [text[s:e]]. *)
Definition substr (text : str) (s e : nat) : str :=
  firstn (e - s) (skipn s text).

(** [text[s:e]] is a non-empty run of characters of the class with a
    word boundary at both ends. *)
Definition bounded_run (text : str) (s e : nat) : Prop :=
  s < e /\ (forall k, s <= k < e -> class_at text k = true)
  /\ boundary_at text s = true /\ boundary_at text e = true.

(** A bounded run that no other bounded run contains. *)
Definition maximal_run (text : str) (s e : nat) : Prop :=
  bounded_run text s e /\
  forall s' e', bounded_run text s' e' -> s' <= s -> e <= e' ->
                s' = s /\ e' = e.

(** Where the matches of a walk that started at [pos] lie. *)
Fixpoint spans (pos : nat) (ps : list (str * str)) : list (nat * nat) :=
  match ps with
  | [] => []
  | (g, m) :: ps' =>
      (pos + length g, pos + length g + length m)
        :: spans (pos + length g + length m) ps'
  end.

(** The spans follow one another from left to right. *)
Definition left_to_right (sp : list (nat * nat)) : Prop :=
  StronglySorted (fun a b => snd a <= fst b) sp.

(** *** Lowercase

    A string is lowercase when [str.lower] leaves it as it is.  A code
    point is fixed when lowercasing leaves it alone wherever it
    stands. *)
Definition lowercase (w : str) : Prop := str_lower w = w.

Definition lower_fixed (d : char) : Prop :=
  forall pre post, lower_char pre d post = [d].

(** Three facts about the lowercase mapping of the Unicode database:
    an expansion is never empty, it never contains an apostrophe or a
    double quote, and it consists of fixed code points. *)
Definition lowering_nonempty : Prop :=
  forall pre c post, is_ascii c = false -> uni_lower pre c post <> [].

Definition lowering_quote_free : Prop :=
  forall pre c post d,
    is_ascii c = false -> In d (uni_lower pre c post) -> is_quote d = false.

Definition lowering_stable : Prop :=
  forall pre c post d,
    is_ascii c = false -> In d (uni_lower pre c post) -> lower_fixed d.

(** [s] has no quote character at either end. *)
Definition unquoted (s : str) : Prop :=
  (forall c, hd_error s = Some c -> is_quote c = false) /\
  (forall c, last_char None s = Some c -> is_quote c = false).

(** *** Order of occurrence *)

(** [a] occurs in [l] at some index and [b] at a later one. *)
Fixpoint before {A : Type} (a b : A) (l : list A) : Prop :=
  match l with
  | [] => False
  | x :: r => (x = a /\ In b r) \/ before a b r
  end.

(** The index of the first occurrence of [w] in [ws]; the length of
    [ws] if there is none. *)
Fixpoint index_of (w : str) (ws : list str) : nat :=
  match ws with
  | [] => 0
  | x :: r => if str_eqb x w then 0 else S (index_of w r)
  end.

Definition str_dec : forall a b : str, {a = b} + {a <> b} :=
  list_eq_dec N.eq_dec.

(** The distinct words of a sequence. *)
Definition distinct (ws : list str) : list str := nodup str_dec ws.

Definition keys (cnt : counter) : list str := map fst cnt.

(** Descending by count. *)
Definition descending (l : counter) : Prop :=
  StronglySorted (fun a b => snd b <= snd a) l.

(** A decimal digit. *)
Definition is_digit (c : char) : Prop := (48 <= c <= 57)%N.

Definition RPAREN : char := 41%N.

(** [s] ends with the character [c]. *)
Definition ends_with (c : char) (s : str) : Prop := exists r, s = r ++ [c].

(** [text[a:b]] is a maximal run of word characters, apostrophes and
    hyphens: the characters next to it, if any, are not of the class. *)
Definition class_run (text : str) (a b : nat) : Prop :=
  a < b /\ (forall k, a <= k < b -> class_at text k = true)
  /\ (a = 0 \/ class_at text (a - 1) = false)
  /\ class_at text b = false.

(** [text[s:e]] is what is left of the run [text[a:b]] without the
    apostrophes and hyphens at its ends. *)
Definition trimmed_run (text : str) (a b s e : nat) : Prop :=
  a <= s /\ s < e /\ e <= b
  /\ word_at text s = true /\ word_at text (e - 1) = true
  /\ (forall k, a <= k < s -> word_at text k = false)
  /\ (forall k, e <= k < b -> word_at text k = false).

(** The segments of [s] between any two of its characters of the class
    [p], one after another: the split at every single character of the
    class. *)
Fixpoint split_each (p : char -> bool) (s : str) : list str :=
  match s with
  | [] => [[]]
  | c :: r =>
      if p c then [] :: split_each p r
      else match split_each p r with
           | seg :: segs => (c :: seg) :: segs
           | [] => [[c]]
           end
  end.

(** *** Renaming the characters of a text *)

Definition map_result (f : char -> char) (r : match_result) : match_result :=
  option_map (fun mt => (map f (fst mt), map f (snd mt))) r.

Definition map_pieces (f : char -> char) (ps : pieces) : pieces :=
  (map (fun gm => (map f (fst gm), map f (snd gm))) (fst ps), map f (snd ps)).

(** [f] keeps every character in and out of the classes of the pattern,
    and of the word characters. *)
Definition class_preserving (f : char -> char) (pat : pattern) : Prop :=
  (forall c, is_word (f c) = is_word c) /\
  Forall (fun n => match n with
                   | Boundary => True
                   | ClassPlus p => forall c, p (f c) = p c
                   end) pat.

(** The characters that a top word of an ASCII text is made of:
    lowercase letters, digits, the underscore, the apostrophe and the
    hyphen. *)
Definition plain_char (c : char) : Prop :=
  is_ascii c = true /\ word_class c = true /\ ascii_lower c = c.

(** No whitespace code point is alphanumeric: a fact of the Unicode
    database. *)
Definition spaces_not_alnum : Prop :=
  forall c, is_ascii c = false -> uni_isspace c = true -> uni_isalnum c = false.

(** The ASCII code points. *)
Definition ascii_range : list char := map N.of_nat (seq 0 128).

(** ** main

    [main] from the point where [parse_args] has returned: the arguments
    are the values of [--text] and [--file], [None] for an option that
    was not given (the parser refuses a command line with both).  What
    the program reads comes from the world it runs in: the decoded
    content of the file at a path, if it can be opened and decoded, and
    the next line of the standard input without its newline, if there is
    one.  The result is what was written to the standard output and how
    the program ended. *)

Record arguments : Type := mkArgs {
  arg_text : option str;
  arg_file : option str
}.

Record world : Type := mkWorld {
  file_content : str -> option str;
  input_line : option str
}.

Inductive exception : Type :=
| CannotRead : exception
| EndOfInput : exception.

Inductive exit : Type :=
| Finished : exit
| Raised : exception -> exit.

Definition PROMPT : str := lit "Enter text to analyze: ".

(** [if value:] for an optional string: [None] and the empty string
    count as absent. *)
Definition given (o : option str) : option str :=
  match o with
  | Some s => if truthy s then Some s else None
  | None => None
  end.

Definition print_report (out text : str) : option (str * exit) :=
  st <- analyze_text text ;;
  Some (out ++ format_report st ++ [NEWLINE], Finished).

Definition main (args : arguments) (w : world) : option (str * exit) :=
  match given (arg_file args) with
  | Some path =>
      match file_content w path with
      | Some text => print_report [] text
      | None => Some ([], Raised CannotRead)
      end
  | None =>
      match given (arg_text args) with
      | Some text => print_report [] text
      | None =>
          match input_line w with
          | Some text => print_report PROMPT text
          | None => Some (PROMPT, Raised EndOfInput)
          end
      end
  end.

(** *** Decimal numerals *)

Definition digit_value (c : char) : nat := N.to_nat (c - 48).

(** The number that a string of decimal digits denotes. *)
Definition decimal_value (s : str) : nat :=
  fold_left (fun acc c => 10 * acc + digit_value c) s 0.

(** *** Uppercase *)

(** [c.isupper()] for one character. *)
Definition isupper (c : char) : bool :=
  if is_ascii c then between 65 90 c else uni_isupper c.

(** No character of [w] is an uppercase letter. *)
Definition no_uppercase (w : str) : Prop :=
  forallb (fun c => negb (isupper c)) w = true.

(** No character of [w] is one of the capital letters [A] to [Z]. *)
Definition no_ascii_capital (w : str) : Prop :=
  forallb (fun c => negb (between 65 90 c)) w = true.

(** * Properties *)

Ltac ascii_cases :=
  unfold is_quote, is_word, isalnum, ascii_isalnum, ascii_lower, between,
    is_ascii, APOSTROPHE, QUOTATION, HYPHEN, UNDERSCORE in *;
  code_point_cases.

(** ** The matcher *)

Lemma last_char_nonempty (m : str) (a b : option char) :
  m <> [] -> last_char a m = last_char b m.
Proof. destruct m; [congruence | reflexivity]. Qed.

Lemma last_char_app (m1 m2 : str) (a : option char) :
  last_char a (m1 ++ m2) = last_char (last_char a m1) m2.
Proof. revert a; induction m1; intros; simpl; auto. Qed.

Lemma candidate_cons p t c r m tl :
  p c = true -> m <> [] ->
  candidate p t r m tl -> candidate p t (c :: r) (c :: m) tl.
Proof.
  intros Hc Hm (-> & _ & Hall & Ht); repeat split; simpl.
  - discriminate.
  - now rewrite Hc.
  - now rewrite (last_char_nonempty m (Some c) None).
Qed.

Lemma candidate_inv p t c r m tl :
  candidate p t (c :: r) m tl ->
  p c = true /\
  exists m', m = c :: m' /\
    ((m' = [] /\ tl = r /\ t (Some c) r = true) \/ candidate p t r m' tl).
Proof.
  intros (E & Hm & Hall & Ht).
  destruct m as [|c' m']; [congruence|].
  simpl in E; injection E as <- ->.
  simpl in Hall; apply andb_true_iff in Hall as [Hc Hall].
  split; [assumption|]. exists m'; split; [reflexivity|].
  destruct m' as [|d m'']; [left; auto|right].
  repeat split; auto. discriminate.
Qed.

(** The greedy repetition returns the longest candidate, and fails only
    when there is none. *)
Lemma class_plus_spec p t rest :
  match class_plus p (guard t) rest with
  | Some (m, tl) =>
      candidate p t rest m tl /\
      forall m' tl', candidate p t rest m' tl' -> length m' <= length m
  | None => forall m' tl', ~ candidate p t rest m' tl'
  end.
Proof.
  induction rest as [|c r IH]; simpl.
  - intros m' tl' (E & Hm & _). destruct m'; [congruence | discriminate].
  - destruct (p c) eqn:Hc.
    + destruct (class_plus p (guard t) r) as [[m tl]|].
      * destruct IH as [Hcand Hmax]. split.
        -- apply candidate_cons; auto. now destruct Hcand as (_ & ? & _).
        -- intros m' tl' H'. apply candidate_inv in H' as (_ & m'' & -> & H').
           destruct H' as [(-> & _)|H']; simpl; [lia|].
           specialize (Hmax _ _ H'); lia.
      * unfold guard at 1. destruct (t (Some c) r) eqn:Ht.
        -- split.
           ++ repeat split; simpl; auto; [discriminate | now rewrite Hc].
           ++ intros m' tl' H'. apply candidate_inv in H' as (_ & m'' & -> & H').
              destruct H' as [(-> & _)|H']; simpl; [lia|].
              now apply IH in H'.
        -- intros m' tl' H'. apply candidate_inv in H' as (_ & m'' & -> & H').
           destruct H' as [(_ & _ & Ht')|H']; [congruence|].
           now apply IH in H'.
    + intros m' tl' H'. apply candidate_inv in H' as (Hc' & _). congruence.
Qed.

Lemma take_drop_while p s : take_while p s ++ drop_while p s = s.
Proof. induction s as [|c r IH]; simpl; auto. destruct (p c); simpl; congruence. Qed.

Lemma take_while_all p s : forallb p (take_while p s) = true.
Proof. induction s as [|c r IH]; simpl; auto. destruct (p c) eqn:E; simpl; auto. now rewrite E. Qed.

(** A pattern that is a single class repetition matches the longest run
    of the class that starts at the position. *)
Lemma match_class p prev rest :
  match_here [ClassPlus p] prev rest =
    match rest with
    | [] => None
    | c :: _ =>
        if p c then Some (take_while p rest, drop_while p rest) else None
    end.
Proof.
  simpl. clear prev.
  induction rest as [|c r IH]; simpl; auto.
  destruct (p c) eqn:Hc; auto.
  rewrite IH. destruct r as [|d r']; simpl; auto.
  destruct (p d); auto.
Qed.

Lemma match_word prev rest :
  match_here word_pattern prev rest =
    if at_boundary prev (hd_error rest)
    then class_plus word_class (guard ends_at_boundary) rest
    else None.
Proof. reflexivity. Qed.

Lemma consuming_class p : consuming [ClassPlus p].
Proof.
  intros prev rest m tl. rewrite match_class.
  destruct rest as [|c r]; [discriminate|].
  destruct (p c) eqn:Hc; [|discriminate].
  intros [= <- <-]. split; [symmetry; apply (take_drop_while p (c :: r))|].
  simpl. rewrite Hc. discriminate.
Qed.

Lemma consuming_word : consuming word_pattern.
Proof.
  intros prev rest m tl. rewrite match_word.
  destruct (at_boundary prev (hd_error rest)); [|discriminate].
  pose proof (class_plus_spec word_class ends_at_boundary rest) as H.
  intros E; rewrite E in H. destruct H as [(? & ? & _) _]. auto.
Qed.

(** ** The walk *)

Lemma unparse_push_gap c ps : unparse (push_gap c ps) = c :: unparse ps.
Proof. destruct ps as [[|[g m] ps'] tl]; reflexivity. Qed.

(** With one unit of fuel more than there are characters left, the walk
    finishes. *)
Lemma scan_total pat :
  consuming pat ->
  forall fuel prev rest,
    length rest < fuel -> exists ps, scan pat fuel prev rest = Some ps.
Proof.
  intros Hpat fuel; induction fuel as [|fuel IH]; intros prev rest Hlen; [lia|].
  simpl. destruct (match_here pat prev rest) as [[m tl]|] eqn:Hm.
  - apply Hpat in Hm as [-> Hne].
    destruct (IH (last_char prev m) tl) as [[ps tl'] ->]; [|eauto].
    rewrite length_app in Hlen. destruct m; [congruence|simpl in Hlen; lia].
  - destruct rest as [|c r]; [eauto|].
    destruct (IH (Some c) r) as [ps ->]; [simpl in Hlen; lia|eauto].
Qed.

(** More fuel does not change what a finished walk returns. *)
Lemma scan_more_fuel pat fuel : forall prev rest ps,
  scan pat fuel prev rest = Some ps ->
  forall fuel', fuel <= fuel' -> scan pat fuel' prev rest = Some ps.
Proof.
  induction fuel as [|fuel IH]; intros prev rest ps; [discriminate|].
  intros H [|fuel'] Hle; [lia|]. cbn [scan] in *.
  destruct (match_here pat prev rest) as [[m tl]|].
  - destruct (scan pat fuel (last_char prev m) tl) as [[ps' tl']|] eqn:Hs;
      [|discriminate].
    now rewrite (IH _ _ _ Hs fuel') by lia.
  - destruct rest as [|c r]; [assumption|].
    destruct (scan pat fuel (Some c) r) as [ps'|] eqn:Hs; [|discriminate].
    now rewrite (IH _ _ _ Hs fuel') by lia.
Qed.

Lemma scan_unparse pat :
  consuming pat ->
  forall fuel prev rest ps,
    scan pat fuel prev rest = Some ps -> unparse ps = rest.
Proof.
  intros Hpat fuel; induction fuel as [|fuel IH]; intros prev rest ps; [discriminate|].
  simpl. destruct (match_here pat prev rest) as [[m tl]|] eqn:Hm.
  - apply Hpat in Hm as [-> _].
    destruct (scan pat fuel (last_char prev m) tl) as [[ps' tl']|] eqn:Hs; [|discriminate].
    intros [= <-]. apply IH in Hs. unfold unparse in *; simpl in *.
    rewrite <- app_assoc. now rewrite Hs.
  - destruct rest as [|c r]; [now intros [= <-]|].
    destruct (scan pat fuel (Some c) r) as [ps'|] eqn:Hs; [|discriminate].
    intros [= <-]. rewrite unparse_push_gap. f_equal. eauto.
Qed.

Lemma finditer_total pat text :
  consuming pat -> exists ps, finditer pat text = Some ps.
Proof. intros Hpat. apply scan_total; auto. Qed.

(** *** Walks of a single class repetition *)

Lemma filter_take_while p s :
  filter (fun c => negb (p c)) (take_while p s) = [].
Proof.
  induction s as [|c r IH]; simpl; auto.
  destruct (p c) eqn:E; simpl; auto. now rewrite E.
Qed.

Lemma filter_drop_while p s :
  filter (fun c => negb (p c)) (drop_while p s) = filter (fun c => negb (p c)) s.
Proof.
  rewrite <- (take_drop_while p s) at 2.
  now rewrite filter_app, filter_take_while.
Qed.

(** The gaps and the tail are the text without the characters of the
    class. *)
Lemma scan_class_gaps p fuel :
  forall prev rest ps tl,
    scan [ClassPlus p] fuel prev rest = Some (ps, tl) ->
    concat (map fst ps) ++ tl = filter (fun c => negb (p c)) rest.
Proof.
  induction fuel as [|fuel IH]; intros prev rest ps tl; [discriminate|].
  cbn [scan]. rewrite match_class.
  destruct rest as [|c r]; [now intros [= <- <-]|].
  destruct (p c) eqn:Hc.
  - destruct (scan _ fuel _ _) as [[ps' tl']|] eqn:Hs; [|discriminate].
    intros [= <- <-]. apply IH in Hs. simpl. rewrite Hs.
    rewrite (filter_drop_while p (c :: r)). reflexivity.
  - destruct (scan _ fuel _ _) as [[ps' tl']|] eqn:Hs; [|discriminate].
    apply IH in Hs. cbn [filter]. rewrite Hc. cbn [negb]. rewrite <- Hs.
    destruct ps' as [|[g m] ps'']; intros [= <- <-]; reflexivity.
Qed.

Lemma split_on_cons p c s segs seg :
  p c = false -> split_on p s (seg :: segs) ->
  split_on p (c :: s) ((c :: seg) :: segs).
Proof.
  intros Hc H. inversion H; subst.
  - constructor. unfold free_of in *; simpl. now rewrite Hc.
  - apply (split_sep p (c :: seg)); auto.
    unfold free_of in *; simpl. now rewrite Hc.
Qed.

Lemma starts_with_drop_while p s : starts_with p (drop_while p s) = false.
Proof.
  induction s as [|c r IH]; simpl; auto.
  destruct (p c) eqn:E; simpl; auto.
Qed.

(** The gaps and the tail are the segments between the maximal runs of
    the class. *)
Lemma scan_class_split p fuel :
  forall prev rest ps tl,
    scan [ClassPlus p] fuel prev rest = Some (ps, tl) ->
    split_on p rest (map fst ps ++ [tl]).
Proof.
  induction fuel as [|fuel IH]; intros prev rest ps tl; [discriminate|].
  cbn [scan]. rewrite match_class.
  destruct rest as [|c r]; [intros [= <- <-]; now constructor|].
  destruct (p c) eqn:Hc.
  - destruct (scan _ fuel _ _) as [[ps' tl']|] eqn:Hs; [|discriminate].
    intros [= <- <-]. apply IH in Hs.
    rewrite <- (take_drop_while p (c :: r)).
    apply (split_sep p [] (take_while p (c :: r))); auto.
    + reflexivity.
    + simpl; rewrite Hc; discriminate.
    + apply take_while_all.
    + apply starts_with_drop_while.
  - destruct (scan _ fuel _ _) as [[ps' tl']|] eqn:Hs; [|discriminate].
    apply IH in Hs.
    destruct ps' as [|[g m] ps'']; intros [= <- <-]; simpl in *;
      now apply split_on_cons.
Qed.

Lemma free_of_take_while p s :
  free_of p s -> take_while (fun c => negb (p c)) s = s.
Proof.
  unfold free_of. induction s as [|c r IH]; simpl; auto.
  destruct (negb (p c)); simpl; [intros; f_equal; auto | discriminate].
Qed.

Lemma split_on_decompose p seg sep rest :
  free_of p seg -> sep <> [] -> forallb p sep = true ->
  starts_with p rest = false ->
  take_while (fun c => negb (p c)) (seg ++ sep ++ rest) = seg /\
  take_while p (sep ++ rest) = sep /\ drop_while p (sep ++ rest) = rest.
Proof.
  intros Hseg Hne Hsep Hrest. split; [|split].
  - unfold free_of in Hseg. induction seg as [|c r IH]; simpl in *.
    + destruct sep as [|d sep']; [congruence|]. simpl in *.
      apply andb_true_iff in Hsep as [-> _]. reflexivity.
    + apply andb_true_iff in Hseg as [-> Hr]. f_equal; auto.
  - clear Hne. induction sep as [|d sep' IH]; simpl in *.
    + destruct rest; simpl in *; auto. now rewrite Hrest.
    + apply andb_true_iff in Hsep as [-> Hs]. f_equal; auto.
  - clear Hne. induction sep as [|d sep' IH]; simpl in *.
    + destruct rest; simpl in *; auto. now rewrite Hrest.
    + apply andb_true_iff in Hsep as [-> Hs]. auto.
Qed.

(** The segments are determined by the text. *)
Lemma split_on_unique p text segs1 :
  split_on p text segs1 ->
  forall segs2, split_on p text segs2 -> segs1 = segs2.
Proof.
  induction 1 as [seg Hseg | seg sep rest segs Hseg Hne Hsep Hrest Hsplit IH];
    intros segs2 H2.
  - inversion H2 as [seg' Hseg' | seg' sep' rest' segs' Hseg' Hne' Hsep' Hrest' Hsplit' E]; subst; auto.
    exfalso. unfold free_of in Hseg.
    rewrite !forallb_app in Hseg.
    apply andb_true_iff in Hseg as (_ & Hs).
    apply andb_true_iff in Hs as (Hs & _).
    destruct sep' as [|d sep'']; [congruence|]. simpl in *.
    apply andb_true_iff in Hsep' as [Hd _].
    apply andb_true_iff in Hs as [Hd' _]. rewrite Hd in Hd'. discriminate.
  - inversion H2 as [seg' Hseg' | seg' sep' rest' segs' Hseg' Hne' Hsep' Hrest' Hsplit' E]; subst.
    + exfalso. unfold free_of in Hseg'.
      rewrite !forallb_app in Hseg'.
      apply andb_true_iff in Hseg' as (_ & Hs).
      apply andb_true_iff in Hs as (Hs & _).
      destruct sep as [|d sep'']; [congruence|]. simpl in *.
      apply andb_true_iff in Hsep as [Hd _].
      apply andb_true_iff in Hs as [Hd' _]. rewrite Hd in Hd'. discriminate.
    + destruct (split_on_decompose p seg sep rest Hseg Hne Hsep Hrest) as (E1 & E2 & E3).
      destruct (split_on_decompose p seg' sep' rest' Hseg' Hne' Hsep' Hrest') as (E1' & E2' & E3').
      rewrite E in E1'. rewrite E1 in E1'. subst seg'.
      apply app_inv_head in E.
      rewrite E in E3'. rewrite E3 in E3'. subst rest'.
      f_equal. auto.
Qed.

(** ** Positions in the text *)

Lemma skipn_app_eq (text a b : str) pos :
  skipn pos text = a ++ b ->
  skipn (pos + length a) text = b /\ substr text pos (pos + length a) = a
  /\ (a <> [] -> pos + length a <= length text).
Proof.
  intros E. unfold substr. rewrite Nat.add_comm at 1. rewrite <- skipn_skipn, E.
  replace (pos + length a - pos) with (length a) by lia.
  rewrite skipn_app, skipn_all, Nat.sub_diag, firstn_app, firstn_all, Nat.sub_diag.
  simpl. rewrite app_nil_r. repeat split.
  intros Hne.
  assert (H : length (skipn pos text) = length a + length b)
    by now rewrite E, length_app.
  rewrite length_skipn in H.
  destruct a; [congruence|]. simpl in *. lia.
Qed.

Lemma skipn_cons_eq (text r : str) c pos :
  skipn pos text = c :: r ->
  nth_error text pos = Some c /\ skipn (S pos) text = r /\ pos < length text.
Proof.
  intros E. rewrite <- hd_error_skipn, E. split; [reflexivity|].
  destruct (skipn_app_eq text [c] r pos E) as (H & _ & L).
  simpl in *. rewrite Nat.add_1_r in *. split; [assumption|].
  assert (S pos <= length text) by (apply L; discriminate). lia.
Qed.

Lemma firstn_pointwise p : forall n (l : str),
  (forall k, k < n -> exists c, nth_error l k = Some c /\ p c = true) ->
  forallb p (firstn n l) = true /\ length (firstn n l) = n.
Proof.
  induction n as [|n IH]; intros l H; [split; reflexivity|].
  destruct l as [|c r].
  - destruct (H 0) as (c & E & _); [lia | discriminate].
  - destruct (H 0) as (c' & E & Hc); [lia|]. injection E as <-.
    destruct (IH r) as [IH1 IH2].
    + intros k Hk. apply (H (S k)). lia.
    + simpl. rewrite Hc, IH1, IH2. split; reflexivity.
Qed.

Lemma last_char_firstn : forall n (l : str) a,
  n <= length l ->
  last_char a (firstn n l) = match n with 0 => a | S k => nth_error l k end.
Proof.
  induction n as [|n IH]; intros l a Hn; [reflexivity|].
  destruct l as [|c r]; simpl in Hn; [lia|].
  simpl. rewrite IH by lia. destruct n; reflexivity.
Qed.

Lemma class_at_lt text k : class_at text k = true -> k < length text.
Proof.
  unfold class_at. destruct (nth_error text k) eqn:E; [|discriminate].
  intros _. apply nth_error_Some. congruence.
Qed.

Lemma bounded_run_le text s e : bounded_run text s e -> e <= length text.
Proof.
  intros (Hlt & Hc & _). specialize (Hc (e - 1)).
  apply class_at_lt in Hc; lia.
Qed.

Lemma substr_length text s e :
  e <= length text -> length (substr text s e) = e - s.
Proof. intros H. unfold substr. rewrite length_firstn, length_skipn. lia. Qed.

(** A candidate of the matcher at [pos], in terms of positions. *)
Lemma candidate_positions text pos m tl :
  candidate word_class ends_at_boundary (skipn pos text) m tl ->
  pos < pos + length m /\
  tl = skipn (pos + length m) text /\
  m = substr text pos (pos + length m) /\
  (forall k, pos <= k < pos + length m -> class_at text k = true) /\
  boundary_at text (pos + length m) = true.
Proof.
  intros (E & Hne & Hall & Hb).
  destruct (skipn_app_eq text m tl pos E) as (E1 & E2 & L).
  specialize (L Hne).
  assert (Hlen : 0 < length m) by (destruct m; [congruence | simpl; lia]).
  split; [lia|]. split; [auto|]. split; [auto|]. split.
  - intros k Hk. unfold class_at.
    replace k with (pos + (k - pos)) by lia.
    rewrite <- nth_error_skipn, E, nth_error_app1 by lia.
    destruct (nth_error m (k - pos)) as [c|] eqn:En.
    + apply nth_error_In in En. rewrite forallb_forall in Hall. auto.
    + apply nth_error_None in En. lia.
  - unfold boundary_at, ends_at_boundary in *.
    rewrite <- E1, hd_error_skipn in Hb.
    rewrite <- Hb. f_equal.
    assert (L' : last_char None (substr text pos (pos + length m))
                 = prev_at text (pos + length m)).
    { unfold substr.
      rewrite last_char_firstn by (rewrite length_skipn; lia).
      replace (pos + length m - pos) with (length m) by lia.
      destruct (length m) as [|n] eqn:En; [lia|].
      rewrite nth_error_skipn. replace (pos + S n) with (S (pos + n)) by lia.
      reflexivity. }
    rewrite E2 in L'. now rewrite L'.
Qed.

Lemma positions_candidate text pos e :
  pos < e ->
  (forall k, pos <= k < e -> class_at text k = true) ->
  boundary_at text e = true ->
  candidate word_class ends_at_boundary (skipn pos text)
    (substr text pos e) (skipn e text).
Proof.
  intros Hlt Hc Hb.
  assert (He : e <= length text).
  { specialize (Hc (e - 1)). apply class_at_lt in Hc; lia. }
  destruct (firstn_pointwise word_class (e - pos) (skipn pos text)) as [Hall Hlen].
  { intros k Hk. rewrite nth_error_skipn.
    specialize (Hc (pos + k)). unfold class_at in Hc.
    destruct (nth_error text (pos + k)) as [c|]; [|discriminate Hc; lia].
    exists c; split; auto. apply Hc; lia. }
  unfold candidate, substr. split; [|split; [|split]]; auto.
  - rewrite <- (firstn_skipn (e - pos) (skipn pos text)) at 1.
    rewrite skipn_skipn. do 2 f_equal. lia.
  - intros E. rewrite E in Hlen. simpl in Hlen. lia.
  - unfold boundary_at, ends_at_boundary in *.
    rewrite hd_error_skipn, <- Hb. f_equal.
    rewrite last_char_firstn by (rewrite length_skipn; lia).
    destruct (e - pos) as [|n] eqn:En; [lia|].
    rewrite nth_error_skipn. replace e with (S (pos + n)) by lia.
    reflexivity.
Qed.

Lemma last_char_substr text s e a :
  s < e -> e <= length text ->
  last_char a (substr text s e) = prev_at text e.
Proof.
  intros Hlt He. unfold substr.
  rewrite last_char_firstn by (rewrite length_skipn; lia).
  destruct (e - s) as [|n] eqn:En; [lia|].
  rewrite nth_error_skipn. replace e with (S (s + n)) by lia.
  reflexivity.
Qed.

(** What the word pattern does at [pos], in terms of bounded runs: it
    returns the longest bounded run that starts there, and fails when
    there is none. *)
Lemma match_word_at text pos :
  match match_here word_pattern (prev_at text pos) (skipn pos text) with
  | Some (m, tl) =>
      m = substr text pos (pos + length m) /\
      tl = skipn (pos + length m) text /\
      last_char (prev_at text pos) m = prev_at text (pos + length m) /\
      bounded_run text pos (pos + length m) /\
      forall e, bounded_run text pos e -> e <= pos + length m
  | None => forall e, ~ bounded_run text pos e
  end.
Proof.
  rewrite match_word, hd_error_skipn.
  fold (boundary_at text pos).
  destruct (boundary_at text pos) eqn:Hb.
  - pose proof (class_plus_spec word_class ends_at_boundary (skipn pos text)) as H.
    destruct (class_plus _ _ _) as [[m tl]|].
    + destruct H as [Hcand Hmax].
      destruct (candidate_positions _ _ _ _ Hcand) as (Hlt & Etl & Em & Hc & Hb').
      assert (Hrun : bounded_run text pos (pos + length m))
        by (repeat split; auto; lia).
      split; [|split; [|split; [|split]]]; auto.
      * rewrite Em at 1.
        apply last_char_substr; [lia | now apply bounded_run_le in Hrun].
      * intros e He. pose proof (bounded_run_le _ _ _ He) as Hle.
        destruct He as (Hlt' & Hc' & _ & Hb'').
        specialize (Hmax _ _ (positions_candidate text pos e Hlt' Hc' Hb'')).
        rewrite substr_length in Hmax by assumption. lia.
    + intros e (Hlt' & Hc' & _ & Hb'').
      exact (H _ _ (positions_candidate text pos e Hlt' Hc' Hb'')).
  - intros e (_ & _ & Hb' & _). congruence.
Qed.

Lemma spans_push_gap c ps pos :
  spans pos (fst (push_gap c ps)) = spans (S pos) (fst ps).
Proof.
  destruct ps as [[|[g m] ps'] tl]; simpl; [reflexivity|].
  now rewrite !Nat.add_succ_r.
Qed.

(** Nothing is matched twice, and the matches are found from left to
    right. *)
Lemma spans_sorted ps : forall pos,
  left_to_right (spans pos ps) /\
  Forall (fun se => pos <= fst se) (spans pos ps).
Proof.
  induction ps as [|[g m] ps IH]; intros pos; simpl.
  - split; constructor.
  - destruct (IH (pos + length g + length m)) as [IH1 IH2]. split.
    + constructor; auto.
    + constructor; [simpl; lia|].
      eapply Forall_impl; [|exact IH2]. simpl; intros; lia.
Qed.

(** The matched texts are the slices of the text at the spans. *)
Lemma spans_substr text ps : forall pos tl,
  unparse (ps, tl) = skipn pos text ->
  map snd ps = map (fun se => substr text (fst se) (snd se)) (spans pos ps).
Proof.
  induction ps as [|[g m] ps IH]; intros pos tl E; [reflexivity|].
  unfold unparse in E; cbn [fst snd map concat] in E.
  rewrite <- !app_assoc in E. symmetry in E.
  destruct (skipn_app_eq _ _ _ _ E) as (E1 & _ & _).
  destruct (skipn_app_eq _ _ _ _ E1) as (E2 & E3 & _).
  cbn [map spans fst snd]. f_equal; [now rewrite E3|].
  apply (IH _ tl). now rewrite E2.
Qed.

(** The walk of the word pattern finds the maximal bounded runs, provided
    no bounded run straddles the position where it starts. *)
Lemma scan_word_spans text fuel : forall pos ps,
  (forall s e, bounded_run text s e -> s < pos -> e <= pos) ->
  scan word_pattern fuel (prev_at text pos) (skipn pos text) = Some ps ->
  forall s e, In (s, e) (spans pos (fst ps)) <-> pos <= s /\ maximal_run text s e.
Proof.
  induction fuel as [|fuel IH]; intros pos ps Inv; [discriminate|].
  cbn [scan]. pose proof (match_word_at text pos) as Hm.
  destruct (match_here _ _ _) as [[m tl]|].
  - destruct Hm as (Em & Etl & El & Hrun & Hmax).
    set (e0 := pos + length m) in *.
    rewrite El, Etl.
    destruct (scan _ fuel _ _) as [[ps' tl']|] eqn:Hs; [|discriminate].
    intros [= <-].
    assert (Inv' : forall s e, bounded_run text s e -> s < e0 -> e <= e0).
    { intros s e Hse Hlt.
      destruct (Nat.lt_ge_cases s pos) as [Hs'|Hs'].
      - specialize (Inv _ _ Hse Hs'). destruct Hrun; lia.
      - destruct (Nat.le_gt_cases e e0) as [|Hgt]; [assumption|].
        apply Hmax.
        destruct Hse as (? & Hc & ? & ?), Hrun as (? & Hc0 & ? & ?).
        repeat split; auto; [lia|].
        intros k Hk. destruct (Nat.lt_ge_cases k e0); [apply Hc0 | apply Hc]; lia. }
    specialize (IH e0 _ Inv' Hs). cbn [fst spans length] in *.
    rewrite Nat.add_0_r. fold e0.
    intros s e; split.
    + intros [[= <- <-]|Hin].
      * split; [lia|]. split; [assumption|].
        intros s' e' Hse Hs' He'.
        destruct (Nat.lt_ge_cases s' pos) as [Hlt|Hge].
        -- specialize (Inv _ _ Hse Hlt). destruct Hrun; lia.
        -- assert (s' = pos) by lia. subst s'.
           specialize (Hmax _ Hse). lia.
      * apply IH in Hin as [? ?]. split; [destruct Hrun; lia | assumption].
    + intros [Hpos Hmx].
      destruct (Nat.lt_ge_cases s e0) as [Hlt|Hge].
      * left. destruct Hmx as [Hse Hout].
        specialize (Inv' _ _ Hse Hlt).
        destruct (Hout _ _ Hrun Hpos Inv'). f_equal; assumption.
      * right. apply IH. auto.
  - destruct (skipn pos text) as [|c r] eqn:E.
    + intros [= <-]. cbn [fst spans]. intros s e; split; [intros []|].
      intros [Hpos [Hse _]]. apply bounded_run_le in Hse as Hle.
      destruct Hse as (Hlt & _).
      assert (length (skipn pos text) = 0) by now rewrite E.
      rewrite length_skipn in *. lia.
    + destruct (skipn_cons_eq _ _ _ _ E) as (Ec & Er & Hlt).
      replace (scan word_pattern fuel (Some c) r)
        with (scan word_pattern fuel (prev_at text (S pos)) (skipn (S pos) text))
        by (cbn [prev_at]; now rewrite Ec, Er).
      destruct (scan _ fuel _ _) as [ps'|] eqn:Hs; [|discriminate].
      intros [= <-]. rewrite spans_push_gap.
      assert (Inv' : forall s e, bounded_run text s e -> s < S pos -> e <= S pos).
      { intros s e Hse Hs'.
        destruct (Nat.eq_dec s pos) as [->|]; [now apply Hm in Hse|].
        assert (e <= pos) by (apply (Inv s); auto; lia). lia. }
      specialize (IH (S pos) _ Inv' Hs).
      intros s e; rewrite IH. split; intros [Hpos Hmx]; split; auto; try lia.
      destruct (Nat.eq_dec s pos) as [->|]; [|lia].
      destruct Hmx as [Hse _]. now apply Hm in Hse.
Qed.

(** [re.findall] with the word pattern returns the slices of the text at
    its maximal bounded runs, from left to right. *)
Lemma findall_word_spans text :
  exists sp,
    re_findall word_pattern text
      = Some (map (fun se => substr text (fst se) (snd se)) sp)
    /\ left_to_right sp
    /\ forall s e, In (s, e) sp <-> maximal_run text s e.
Proof.
  destruct (finditer_total word_pattern text consuming_word) as [[ps tl] Hs].
  exists (spans 0 ps). unfold re_findall. rewrite Hs. split; [|split].
  - f_equal. apply (spans_substr text ps 0 tl).
    apply (scan_unparse _ consuming_word) in Hs. exact Hs.
  - apply spans_sorted.
  - intros s e.
    rewrite (scan_word_spans text (S (length text)) 0 (ps, tl)).
    + split; [intros [_ H]; exact H | intros H; split; [lia | exact H]].
    + intros s' e' _ H; lia.
    + exact Hs.
Qed.

Lemma word_class_of_word c : is_word c = true -> word_class c = true.
Proof. unfold word_class. now intros ->. Qed.

Lemma word_at_class_at text k : word_at text k = true -> class_at text k = true.
Proof.
  unfold word_at, class_at. destruct (nth_error text k); simpl; [|auto].
  apply word_class_of_word.
Qed.

(** A word character belongs to a run of word characters that starts at
    a boundary ... *)
Lemma word_run_start text : forall k,
  word_at text k = true ->
  exists s, s <= k /\ boundary_at text s = true
            /\ forall j, s <= j <= k -> word_at text j = true.
Proof.
  induction k as [|k IH]; intros Hk.
  - exists 0. split; [lia|]. split.
    + unfold boundary_at, at_boundary; simpl. exact Hk.
    + intros j Hj. now replace j with 0 by lia.
  - destruct (word_at text k) eqn:Hk'.
    + destruct (IH eq_refl) as (s & Hs & Hb & Hall).
      exists s. split; [lia|]. split; [assumption|].
      intros j Hj. destruct (Nat.eq_dec j (S k)) as [->|]; [assumption|].
      apply Hall; lia.
    + exists (S k). split; [lia|]. split.
      * unfold boundary_at, at_boundary, prev_at.
        unfold word_at in Hk, Hk'. now rewrite Hk, Hk'.
      * intros j Hj. now replace j with (S k) by lia.
Qed.

(** ... and ends at one. *)
Lemma word_run_end text : forall n k,
  length text - k <= n ->
  word_at text k = true ->
  exists e, k < e /\ boundary_at text e = true
            /\ forall j, k <= j < e -> word_at text j = true.
Proof.
  induction n as [|n IH]; intros k Hn Hk.
  - apply word_at_class_at, class_at_lt in Hk. lia.
  - destruct (word_at text (S k)) eqn:Hk'.
    + destruct (IH (S k)) as (e & He & Hb & Hall); [lia | assumption|].
      exists e. split; [lia|]. split; [assumption|].
      intros j Hj. destruct (Nat.eq_dec j k) as [->|]; [assumption|].
      apply Hall; lia.
    + exists (S k). split; [lia|]. split.
      * unfold boundary_at, at_boundary, prev_at.
        unfold word_at in Hk, Hk'. now rewrite Hk, Hk'.
      * intros j Hj. now replace j with k by lia.
Qed.

(** A maximal bounded run starts and ends with a word character. *)
Lemma maximal_run_edges text s e :
  maximal_run text s e ->
  word_at text s = true /\ word_at text (e - 1) = true.
Proof.
  intros [(Hlt & Hc & Hbs & Hbe) Hmax]. split.
  - destruct (word_at text s) eqn:Hs; [reflexivity|exfalso].
    unfold boundary_at, at_boundary in Hbs. fold (word_at text s) in Hbs.
    rewrite Hs, xorb_false_r in Hbs.
    destruct s as [|k]; [discriminate|]. simpl in Hbs.
    destruct (word_run_start text k Hbs) as (s' & Hs' & Hb' & Hall).
    destruct (Hmax s' e); try lia.
    split; [lia|]. split; [|split; assumption].
    intros j Hj. destruct (Nat.le_gt_cases j k).
    + apply word_at_class_at, Hall. lia.
    + apply Hc. lia.
  - destruct (word_at text (e - 1)) eqn:He; [reflexivity|exfalso].
    unfold boundary_at, at_boundary in Hbe.
    destruct e as [|k]; [lia|]. simpl in Hbe, He.
    replace (k - 0) with k in He by lia.
    unfold word_at in He. rewrite He in Hbe. simpl in Hbe.
    destruct (word_run_end text (length text) (S k)) as (e' & He' & Hb' & Hall);
      [lia | exact Hbe |].
    destruct (Hmax s e'); try lia.
    split; [lia|]. split; [|split; assumption].
    intros j Hj. destruct (Nat.le_gt_cases j k).
    + apply Hc. lia.
    + apply word_at_class_at, Hall. lia.
Qed.

Lemma hd_error_substr text s e :
  s < e -> hd_error (substr text s e) = nth_error text s.
Proof.
  intros Hlt. unfold substr. rewrite <- hd_error_skipn.
  destruct (e - s) as [|n] eqn:E; [lia|].
  now destruct (skipn s text).
Qed.

(** Every token starts and ends with a word character. *)
Lemma findall_word_edges text found t :
  re_findall word_pattern text = Some found -> In t found ->
  opt_word (hd_error t) = true /\ opt_word (last_char None t) = true
  /\ forallb word_class t = true.
Proof.
  destruct (findall_word_spans text) as (sp & E & _ & Hsp).
  rewrite E. intros [= <-] Hin.
  apply in_map_iff in Hin as ([s e] & <- & Hin). simpl.
  apply Hsp in Hin. destruct (maximal_run_edges _ _ _ Hin) as [Hs He].
  destruct Hin as [Hrun _]. pose proof (bounded_run_le _ _ _ Hrun) as Hle.
  destruct Hrun as (Hlt & Hc & _ & Hbe).
  rewrite hd_error_substr, last_char_substr by assumption.
  split; [exact Hs|]. split.
  - destruct e; [lia|]. simpl in *. now replace (e - 0) with e in He by lia.
  - now destruct (positions_candidate text s e Hlt Hc Hbe) as (_ & _ & ? & _).
Qed.

(** ** Maximal bounded runs and runs of the class *)

Lemma class_run_start text : forall k,
  class_at text k = true ->
  exists a, a <= k /\ (forall j, a <= j <= k -> class_at text j = true)
            /\ (a = 0 \/ class_at text (a - 1) = false).
Proof.
  induction k as [|k IH]; intros Hk.
  - exists 0. split; [lia|]. split; [|now left].
    intros j Hj. now replace j with 0 by lia.
  - destruct (class_at text k) eqn:Hk'.
    + destruct (IH eq_refl) as (a & Ha & Hall & Hedge).
      exists a. split; [lia|]. split; [|assumption].
      intros j Hj. destruct (Nat.eq_dec j (S k)) as [->|]; [assumption|].
      apply Hall; lia.
    + exists (S k). split; [lia|]. split.
      * intros j Hj. now replace j with (S k) by lia.
      * right. simpl. now rewrite Nat.sub_0_r.
Qed.

Lemma class_run_end text : forall n k,
  length text - k <= n ->
  class_at text k = true ->
  exists b, k < b /\ (forall j, k <= j < b -> class_at text j = true)
            /\ class_at text b = false.
Proof.
  induction n as [|n IH]; intros k Hn Hk.
  - apply class_at_lt in Hk. lia.
  - destruct (class_at text (S k)) eqn:Hk'.
    + destruct (IH (S k)) as (b & Hb & Hall & Hedge); [lia | assumption|].
      exists b. split; [lia|]. split; [|assumption].
      intros j Hj. destruct (Nat.eq_dec j k) as [->|]; [assumption|].
      apply Hall; lia.
    + exists (S k). split; [lia|]. split; [|assumption].
      intros j Hj. now replace j with k by lia.
Qed.

Lemma not_class_not_word text k : class_at text k = false -> word_at text k = false.
Proof.
  intros H. destruct (word_at text k) eqn:E; [|reflexivity].
  apply word_at_class_at in E. congruence.
Qed.

Lemma boundary_at_words text k :
  boundary_at text k
  = xorb (match k with 0 => false | S j => word_at text j end) (word_at text k).
Proof. unfold boundary_at, at_boundary, word_at. now destruct k. Qed.

(** The maximal bounded runs are the maximal runs of the class that have
    a word character, without the apostrophes and hyphens at their
    ends. *)
Lemma maximal_run_trimmed text s e :
  maximal_run text s e <->
  exists a b, class_run text a b /\ trimmed_run text a b s e.
Proof.
  split.
  - intros Hmax. destruct (maximal_run_edges _ _ _ Hmax) as [Hs He].
    destruct Hmax as [(Hlt & Hc & Hbs & Hbe) Hmax].
    destruct (class_run_start text s (Hc s ltac:(lia))) as (a & Ha & Hca & Hedge).
    destruct (class_run_end text (length text) (e - 1) ltac:(lia) (Hc (e - 1) ltac:(lia)))
      as (b & Hb & Hcb & Hedge').
    assert (Hall : forall k, a <= k < b -> class_at text k = true).
    { intros k Hk. destruct (Nat.lt_ge_cases k s); [apply Hca; lia|].
      destruct (Nat.lt_ge_cases k e); [apply Hc; lia | apply Hcb; lia]. }
    exists a, b. split; [repeat split; auto; lia|].
    split; [lia|]. split; [lia|]. split; [lia|].
    split; [assumption|]. split; [assumption|]. split.
    + intros k Hk. destruct (word_at text k) eqn:Hw; [exfalso|reflexivity].
      destruct (word_run_start text k Hw) as (s' & Hs' & Hb' & Hw').
      destruct (Hmax s' e); try lia.
      split; [lia|]. split; [|split; assumption].
      intros j Hj. destruct (Nat.le_gt_cases j k).
      * apply word_at_class_at, Hw'. lia.
      * apply Hall. lia.
    + intros k Hk. destruct (word_at text k) eqn:Hw; [exfalso|reflexivity].
      destruct (word_run_end text (length text) k ltac:(lia) Hw) as (e' & He' & Hb' & Hw').
      destruct (Hmax s e'); try lia.
      split; [lia|]. split; [|split; assumption].
      intros j Hj. destruct (Nat.lt_ge_cases j k).
      * apply Hall. lia.
      * apply word_at_class_at, Hw'. lia.
  - intros (a & b & (Hab & Hall & Hedge & Hedge') & (Ha & Hlt & Hb & Hs & He & Hl & Hr)).
    assert (Hprev : forall k, a <= k <= s ->
              match k with 0 => false | S j => word_at text j end = false).
    { intros [|j] Hk; [reflexivity|].
      destruct (Nat.eq_dec (S j) a) as [E|].
      - destruct Hedge as [->|Hedge]; [lia|].
        apply not_class_not_word. rewrite <- E in Hedge. simpl in Hedge.
        now rewrite Nat.sub_0_r in Hedge.
      - apply Hl. lia. }
    assert (Hnext : forall k, e <= k <= b -> word_at text k = false).
    { intros k Hk. destruct (Nat.eq_dec k b) as [->|].
      - now apply not_class_not_word.
      - apply Hr. lia. }
    assert (Hrun : bounded_run text s e).
    { split; [assumption|]. split; [intros k Hk; apply Hall; lia|].
      rewrite !boundary_at_words. split.
      - rewrite Hprev, Hs by lia. reflexivity.
      - rewrite Hnext by lia. destruct e; [lia|].
        simpl in He. rewrite Nat.sub_0_r in He. now rewrite He. }
    split; [assumption|].
    intros s' e' (Hlt' & Hc' & Hbs' & Hbe') Hs' He'.
    assert (Ha' : a <= s').
    { destruct (Nat.le_gt_cases a s') as [|Hgt]; [assumption|exfalso].
      destruct Hedge as [->|Hedge]; [lia|].
      rewrite Hc' in Hedge by lia. discriminate. }
    assert (Hb'' : e' <= b).
    { destruct (Nat.le_gt_cases e' b) as [|Hgt]; [assumption|exfalso].
      rewrite Hc' in Hedge' by lia. discriminate. }
    rewrite boundary_at_words in Hbs', Hbe'. split.
    + destruct (Nat.eq_dec s' s) as [|Hne]; [assumption|exfalso].
      rewrite Hprev, Hl in Hbs' by lia. discriminate.
    + destruct (Nat.eq_dec e' e) as [|Hne]; [assumption|exfalso].
      rewrite Hnext in Hbe' by lia.
      destruct e' as [|j]; [lia|]. rewrite Hnext in Hbe' by lia. discriminate.
Qed.

(** ** Stripping and lowercasing *)

Lemma word_not_quote c : is_word c = true -> is_quote c = false.
Proof. intros H. ascii_cases. Qed.

Lemma word_not_hyphen c : is_word c = true -> c <> APOSTROPHE /\ c <> HYPHEN.
Proof. intros H. split; intros ->; ascii_cases. Qed.

Lemma ascii_lower_quote c : is_quote (ascii_lower c) = is_quote c.
Proof. ascii_cases. Qed.

Lemma ascii_lower_fixed c : is_ascii c = true -> lower_fixed (ascii_lower c).
Proof.
  intros H pre post. unfold lower_char.
  replace (is_ascii (ascii_lower c)) with true by ascii_cases.
  f_equal. ascii_cases.
Qed.

Lemma lstrip_suffix p s :
  exists a, s = a ++ lstrip p s /\ forallb p a = true.
Proof.
  induction s as [|c r (a & E & Ha)]; simpl.
  - now exists [].
  - destruct (p c) eqn:Hc.
    + exists (c :: a). simpl. rewrite Hc, Ha. split; [congruence | reflexivity].
    + now exists [].
Qed.

Lemma rstrip_prefix p s :
  exists b, s = rstrip p s ++ b /\ forallb p b = true.
Proof.
  unfold rstrip. destruct (lstrip_suffix p (rev s)) as (a & E & Ha).
  exists (rev a). split.
  - rewrite <- rev_app_distr, <- E. now rewrite rev_involutive.
  - rewrite forallb_forall in *. intros x Hx. apply Ha. now apply in_rev.
Qed.

Lemma lstrip_head p s c : hd_error (lstrip p s) = Some c -> p c = false.
Proof.
  induction s as [|d r IH]; simpl; [discriminate|].
  destruct (p d) eqn:E; auto. simpl. congruence.
Qed.

Lemma hd_error_rev_app (s l : str) :
  hd_error (rev s ++ l) = last_char (hd_error l) s.
Proof.
  revert l; induction s as [|c r IH]; intros l; simpl; [reflexivity|].
  rewrite <- app_assoc. apply IH.
Qed.

Lemma hd_error_rev (s : str) : hd_error (rev s) = last_char None s.
Proof. rewrite <- (app_nil_r (rev s)). apply hd_error_rev_app. Qed.

Lemma last_char_rev (s : str) : last_char None (rev s) = hd_error s.
Proof. now rewrite <- hd_error_rev, rev_involutive. Qed.

(** What [strip] returns has no character of the set at either end. *)
Lemma strip_head p s c : hd_error (strip p s) = Some c -> p c = false.
Proof.
  unfold strip. destruct (rstrip_prefix p (lstrip p s)) as (b & E & _).
  intros H. apply (lstrip_head p s). rewrite E.
  destruct (rstrip p (lstrip p s)); [discriminate | exact H].
Qed.

Lemma strip_last p s c : last_char None (strip p s) = Some c -> p c = false.
Proof. unfold strip, rstrip. rewrite last_char_rev. apply lstrip_head. Qed.

Lemma lstrip_id p s :
  (forall c, hd_error s = Some c -> p c = false) -> lstrip p s = s.
Proof. destruct s as [|c r]; simpl; auto. intros H. now rewrite (H c). Qed.

Lemma rstrip_id p s :
  (forall c, last_char None s = Some c -> p c = false) -> rstrip p s = s.
Proof.
  intros H. unfold rstrip. rewrite lstrip_id, rev_involutive; auto.
  intros c. rewrite hd_error_rev. apply H.
Qed.

Lemma strip_id p s :
  (forall c, hd_error s = Some c -> p c = false) ->
  (forall c, last_char None s = Some c -> p c = false) ->
  strip p s = s.
Proof. intros H1 H2. unfold strip. rewrite lstrip_id by auto. now apply rstrip_id. Qed.

Lemma strip_unquoted s : unquoted (strip is_quote s).
Proof. split; intros c; [apply strip_head | apply strip_last]. Qed.

Lemma Forall_strip (P : char -> Prop) p s : Forall P s -> Forall P (strip p s).
Proof.
  intros H. unfold strip.
  destruct (lstrip_suffix p s) as (a & E & _).
  destruct (rstrip_prefix p (lstrip p s)) as (b & E' & _).
  rewrite E, E' in H. apply Forall_app in H as [_ H].
  now apply Forall_app in H as [H _].
Qed.

Lemma lower_char_fixed :
  lowering_stable ->
  forall pre c post, Forall lower_fixed (lower_char pre c post).
Proof.
  intros Hst pre c post. unfold lower_char.
  destruct (is_ascii c) eqn:Hc.
  - constructor; [now apply ascii_lower_fixed | constructor].
  - apply Forall_forall. intros d Hd. exact (Hst _ _ _ _ Hc Hd).
Qed.

Lemma lower_from_fixed :
  lowering_stable ->
  forall s before, Forall lower_fixed (lower_from before s).
Proof.
  intros Hst. induction s as [|c r IH]; intros before; simpl; [constructor|].
  apply Forall_app. split; [now apply lower_char_fixed | apply IH].
Qed.

Lemma fixed_lower_from w :
  Forall lower_fixed w -> forall before, lower_from before w = w.
Proof.
  induction 1 as [|d r Hd _ IH]; intros before; simpl; [reflexivity|].
  now rewrite Hd, IH.
Qed.

(** What [normalize] returns is lowercase and has no quote at its
    ends. *)
Lemma normalize_lowercase w : lowering_stable -> lowercase (normalize w).
Proof.
  intros Hst. apply fixed_lower_from, Forall_strip.
  now apply lower_from_fixed.
Qed.

Lemma lower_char_nonempty :
  lowering_nonempty -> forall pre c post, lower_char pre c post <> [].
Proof.
  intros Hne pre c post. unfold lower_char.
  destruct (is_ascii c) eqn:Hc; [discriminate | now apply Hne].
Qed.

Lemma lower_char_quote_free :
  lowering_quote_free ->
  forall pre c post d,
    is_quote c = false -> In d (lower_char pre c post) -> is_quote d = false.
Proof.
  intros Hq pre c post d Hc. unfold lower_char.
  destruct (is_ascii c) eqn:Ha.
  - intros [<-|[]]. now rewrite ascii_lower_quote.
  - now apply Hq.
Qed.

Lemma lower_from_snoc r : forall before c,
  exists x, lower_from before (r ++ [c])
            = x ++ lower_char (before ++ r) c [].
Proof.
  induction r as [|d r IH]; intros before c; simpl.
  - exists []. now rewrite !app_nil_r.
  - destruct (IH (before ++ [d]) c) as (x & ->).
    exists (lower_char before d (r ++ [c]) ++ x).
    now rewrite <- !app_assoc.
Qed.

Lemma last_char_In (s : str) : forall a c,
  last_char a s = Some c -> s <> [] -> In c s.
Proof.
  induction s as [|d r IH]; intros a c H Hne; [congruence|].
  simpl in H. destruct r as [|e r'].
  - simpl in H. injection H as ->. now left.
  - right. apply (IH (Some d)); [exact H | discriminate].
Qed.

(** Lowercasing a string that has no quote at its ends gives a string
    that has none either. *)
Lemma lower_unquoted s :
  lowering_nonempty -> lowering_quote_free ->
  unquoted s -> unquoted (str_lower s).
Proof.
  intros Hne Hq [Hhd Hlast]. unfold str_lower. split; intros d Hd.
  - destruct s as [|c r]; [discriminate|]. simpl in Hd.
    pose proof (lower_char_nonempty Hne [] c r) as Hn.
    apply (lower_char_quote_free Hq [] c r); [now apply Hhd|].
    destruct (lower_char [] c r); [congruence|].
    simpl in Hd. injection Hd as ->. now left.
  - destruct (exists_last (l := s)) as (r & c & ->).
    { intros ->. discriminate. }
    destruct (lower_from_snoc r [] c) as (x & E). rewrite E in Hd.
    pose proof (lower_char_nonempty Hne ([] ++ r) c []) as Hn.
    rewrite last_char_app in Hd.
    apply (lower_char_quote_free Hq ([] ++ r) c []).
    + apply Hlast. rewrite last_char_app. reflexivity.
    + eapply last_char_In; eauto.
Qed.

(** ** Counting and ranking *)

Lemma str_eqb_eq a b : str_eqb a b = true <-> a = b.
Proof. unfold str_eqb. destruct (list_eq_dec N.eq_dec a b); split; congruence. Qed.

Lemma str_eqb_refl a : str_eqb a a = true.
Proof. now apply str_eqb_eq. Qed.

Lemma str_eqb_neq a b : a <> b -> str_eqb a b = false.
Proof. intros H. destruct (str_eqb a b) eqn:E; auto. now apply str_eqb_eq in E. Qed.

Lemma before_In {A} (a b : A) l : before a b l -> In a l /\ In b l.
Proof.
  induction l as [|x r IH]; simpl; [tauto|].
  intros [[-> H]|H]; [tauto|]. apply IH in H. tauto.
Qed.

Lemma before_app {A} (a b : A) l1 l2 :
  before a b (l1 ++ l2) <->
  before a b l1 \/ (In a l1 /\ In b l2) \/ before a b l2.
Proof.
  induction l1 as [|x r IH]; simpl; [tauto|].
  rewrite IH, in_app_iff.
  split; [intros [[-> [H|H]]|[H|[[H1 H2]|H]]] | intros [[[-> H]|H]|[[[->|H1] H2]|H]]]; tauto.
Qed.

Lemma before_map {A B} (f : A -> B) (a b : A) l :
  before a b l -> before (f a) (f b) (map f l).
Proof.
  induction l as [|x r IH]; simpl; [tauto|].
  intros [[-> H]|H]; [left; split; auto; now apply in_map | right; auto].
Qed.

Lemma before_firstn {A} (a b : A) n : forall l,
  before a b (firstn n l) -> before a b l.
Proof.
  induction n as [|n IH]; intros [|x r]; simpl; try tauto.
  intros [[-> H]|H]; [left; split; auto | right; auto].
  rewrite <- (firstn_skipn n r). apply in_or_app. now left.
Qed.

Lemma before_total {A} (a b : A) l :
  In a l -> In b l -> a <> b -> before a b l \/ before b a l.
Proof.
  induction l as [|x r IH]; simpl; [tauto|].
  intros [->|Ha] [->|Hb] Hne; tauto.
Qed.

Lemma before_sorted (l : counter) a b :
  descending l -> before a b l -> snd b <= snd a.
Proof.
  induction 1 as [|x r Hs IH Hx]; simpl; [tauto|].
  intros [[-> H]|H]; [|auto].
  rewrite Forall_forall in Hx. now apply Hx.
Qed.

(** *** The counter *)

Lemma Counter_snoc ws w : Counter (ws ++ [w]) = counter_add w (Counter ws).
Proof. unfold Counter. now rewrite fold_left_app. Qed.

Lemma keys_counter_add w cnt :
  keys (counter_add w cnt) = if in_dec str_dec w (keys cnt) then keys cnt
                             else keys cnt ++ [w].
Proof.
  induction cnt as [|[k n] r IH]; simpl; [reflexivity|].
  destruct (str_eqb k w) eqn:E.
  - apply str_eqb_eq in E as ->. simpl.
    destruct (str_dec w w); [|congruence].
    destruct (in_dec str_dec w (keys r)); reflexivity.
  - simpl. rewrite IH.
    destruct (str_dec k w) as [->|]; [now rewrite str_eqb_refl in E|].
    destruct (in_dec str_dec w (keys r)); reflexivity.
Qed.

Lemma keys_Counter_In ws w : In w (keys (Counter ws)) <-> In w ws.
Proof.
  induction ws as [|x ws IH] using rev_ind; [simpl; tauto|].
  rewrite Counter_snoc, keys_counter_add, in_app_iff. simpl.
  destruct (in_dec str_dec x (keys (Counter ws))) as [Hin|Hnin].
  - rewrite IH. split; [tauto|]. intros [H|[<-|[]]]; auto. now apply IH.
  - rewrite in_app_iff, IH. simpl. tauto.
Qed.

Lemma keys_Counter_NoDup ws : NoDup (keys (Counter ws)).
Proof.
  induction ws as [|x ws IH] using rev_ind; [constructor|].
  rewrite Counter_snoc, keys_counter_add.
  destruct (in_dec str_dec x (keys (Counter ws))) as [Hin|Hnin]; auto.
  apply NoDup_app; repeat split; auto.
  - constructor; [intros [] | constructor].
  - intros y Hy [<-|[]]. contradiction.
Qed.

Lemma index_of_app w ws l :
  In w ws -> index_of w (ws ++ l) = index_of w ws /\ index_of w ws < length ws.
Proof.
  induction ws as [|x r IH]; simpl; [tauto|].
  destruct (str_eqb x w) eqn:E; [intros; lia|].
  intros [->|H]; [now rewrite str_eqb_refl in E|].
  destruct (IH H). lia.
Qed.

Lemma index_of_absent w ws l :
  ~ In w ws -> index_of w (ws ++ w :: l) = length ws.
Proof.
  induction ws as [|x r IH]; simpl; intros H.
  - now rewrite str_eqb_refl.
  - rewrite str_eqb_neq by tauto. rewrite IH by tauto. reflexivity.
Qed.

(** The keys of the counter are in the order of their first
    occurrences. *)
Lemma keys_Counter_order ws a b :
  before a b (keys (Counter ws)) -> index_of a ws < index_of b ws.
Proof.
  induction ws as [|x ws IH] using rev_ind; [simpl; tauto|].
  rewrite Counter_snoc, keys_counter_add.
  destruct (in_dec str_dec x (keys (Counter ws))) as [Hin|Hnin].
  - intros H. pose proof (before_In _ _ _ H) as [Ha Hb].
    apply -> keys_Counter_In in Ha; apply -> keys_Counter_In in Hb.
    destruct (index_of_app a ws [x] Ha) as [-> _].
    destruct (index_of_app b ws [x] Hb) as [-> _]. auto.
  - rewrite before_app. simpl. intros [H|[[Ha [<-|[]]]|[[_ []]|[]]]].
    + pose proof (before_In _ _ _ H) as [Ha Hb].
      apply -> keys_Counter_In in Ha; apply -> keys_Counter_In in Hb.
      destruct (index_of_app a ws [x] Ha) as [-> _].
      destruct (index_of_app b ws [x] Hb) as [-> _]. auto.
    + apply -> keys_Counter_In in Ha.
      destruct (index_of_app a ws [x] Ha) as [-> Hlt].
      rewrite index_of_absent; [assumption|].
      intros H. apply Hnin. now apply keys_Counter_In.
Qed.

(** The count of a key is the number of its occurrences. *)
Lemma counter_add_count w cnt k n :
  NoDup (keys cnt) ->
  In (k, n) (counter_add w cnt) ->
  (k = w /\ ((exists m, n = S m /\ In (k, m) cnt) \/ (n = 1 /\ ~ In w (keys cnt))))
  \/ (k <> w /\ In (k, n) cnt).
Proof.
  induction cnt as [|[k' n'] r IH]; simpl; intros Hnd.
  - intros [[= <- <-]|[]]. left. split; auto.
  - inversion Hnd as [|? ? Hk' Hr]; subst.
    destruct (str_eqb k' w) eqn:E.
    + apply str_eqb_eq in E as ->.
      intros [[= <- <-]|H].
      * left. split; auto. left. exists n'. auto.
      * right. split; auto. intros ->. apply Hk'.
        now apply (in_map fst) in H.
    + intros [[= <- <-]|H].
      * right. split; auto. intros ->. now rewrite str_eqb_refl in E.
      * destruct (IH Hr H) as [[-> [(m & -> & Hm)|[-> Hn]]]|[Hne Hin]].
        -- left. split; auto. left. exists m. auto.
        -- left. split; auto. right. split; auto.
           intros [->|Hin]; [now rewrite str_eqb_refl in E | auto].
        -- right. auto.
Qed.

Lemma Counter_count ws k n :
  In (k, n) (Counter ws) -> n = count_occ str_dec ws k.
Proof.
  revert k n. induction ws as [|x ws IH] using rev_ind; intros k n; [intros []|].
  rewrite Counter_snoc. intros H.
  apply counter_add_count in H; [|apply keys_Counter_NoDup].
  rewrite count_occ_app. simpl.
  destruct H as [[-> [(m & -> & Hm)|[-> Hn]]]|[Hne Hin]].
  - apply IH in Hm. destruct (str_dec x x); [lia | congruence].
  - destruct (str_dec x x); [|congruence].
    rewrite keys_Counter_In in Hn.
    apply (count_occ_not_In str_dec) in Hn. lia.
  - apply IH in Hin. destruct (str_dec x k); [congruence | lia].
Qed.

Lemma Counter_length ws : length (Counter ws) = length (distinct ws).
Proof.
  rewrite <- (length_map fst). fold (keys (Counter ws)).
  apply Permutation_length, NoDup_Permutation.
  - apply keys_Counter_NoDup.
  - apply NoDup_nodup.
  - intros w. unfold distinct. now rewrite keys_Counter_In, nodup_In.
Qed.

(** *** The stable descending sort *)

Lemma insert_desc_perm x l : Permutation (x :: l) (insert_desc x l).
Proof.
  induction l as [|y r IH]; simpl; auto.
  destruct (snd x <? snd y); auto.
  rewrite perm_swap. now constructor.
Qed.

Lemma sorted_desc_perm l : Permutation l (sorted_desc l).
Proof.
  induction l as [|x r IH]; simpl; auto.
  rewrite <- insert_desc_perm. now constructor.
Qed.

Lemma insert_desc_sorted x l : descending l -> descending (insert_desc x l).
Proof.
  induction 1 as [|y r Hs IH Hy]; simpl.
  - repeat constructor.
  - destruct (Nat.ltb_spec (snd x) (snd y)).
    + constructor; auto.
      rewrite Forall_forall in *. intros z Hz.
      apply (Permutation_in _ (Permutation_sym (insert_desc_perm x r))) in Hz.
      destruct Hz as [<-|Hz]; [lia | auto].
    + constructor; [now constructor|].
      constructor; [assumption|].
      rewrite Forall_forall in *. intros z Hz. specialize (Hy z Hz). lia.
Qed.

Lemma sorted_desc_sorted l : descending (sorted_desc l).
Proof.
  induction l as [|x r IH]; simpl; [constructor | now apply insert_desc_sorted].
Qed.

Lemma insert_desc_before x l a b :
  before a b (insert_desc x l) ->
  (a = x /\ In b l) \/ (b = x /\ In a l /\ snd x < snd a) \/ before a b l.
Proof.
  induction l as [|y r IH]; simpl.
  - intros [[_ []]|[]].
  - destruct (Nat.ltb_spec (snd x) (snd y)) as [Hxy|Hxy]; simpl.
    + intros [[-> Hb]|Hr].
      * apply (Permutation_in _ (Permutation_sym (insert_desc_perm x r))) in Hb.
        destruct Hb as [<-|Hb]; [right; left; auto | right; right; left; auto].
      * destruct (IH Hr) as [[-> Hb]|[(-> & Ha & Hlt)|Hr']]; auto.
        right; left; auto.
    + intros [[-> Hb]|Hr]; [left; auto | right; right; exact Hr].
Qed.

(** Items with the same count keep their order. *)
Lemma sorted_desc_stable l a b :
  before a b (sorted_desc l) -> snd a = snd b -> before a b l.
Proof.
  induction l as [|x r IH]; simpl; [tauto|].
  intros H E. apply insert_desc_before in H as [[-> Hb]|[(-> & Ha & Hlt)|Hr]].
  - left. split; auto.
    now apply (Permutation_in _ (Permutation_sym (sorted_desc_perm r))).
  - lia.
  - right. auto.
Qed.

Lemma descending_firstn n : forall l, descending l -> descending (firstn n l).
Proof.
  induction n as [|n IH]; intros l H; simpl; [constructor|].
  destruct H as [|x r Hs Hx]; constructor; [now apply IH|].
  rewrite Forall_forall in *. intros z Hz. apply Hx.
  rewrite <- (firstn_skipn n r). apply in_or_app. now left.
Qed.

Lemma most_common_In n cnt a : In a (most_common n cnt) -> In a cnt.
Proof.
  unfold most_common. intros H.
  apply (Permutation_in _ (Permutation_sym (sorted_desc_perm cnt))).
  rewrite <- (firstn_skipn n (sorted_desc cnt)). apply in_or_app. now left.
Qed.

(** What [most_common] returns: at most [n] items, by descending count,
    items with the same count in the order of the counter. *)
Lemma most_common_spec n cnt :
  length (most_common n cnt) = Nat.min n (length cnt) /\
  descending (most_common n cnt) /\
  forall a b, before a b (most_common n cnt) ->
              snd b < snd a \/ (snd a = snd b /\ before a b cnt).
Proof.
  unfold most_common. split; [|split].
  - rewrite length_firstn. f_equal.
    symmetry. apply Permutation_length, sorted_desc_perm.
  - apply descending_firstn, sorted_desc_sorted.
  - intros a b H. apply before_firstn in H.
    pose proof (before_sorted _ _ _ (sorted_desc_sorted cnt) H) as Hle.
    destruct (Nat.eq_dec (snd a) (snd b)) as [E|]; [right | lia].
    split; auto. now apply sorted_desc_stable.
Qed.

(** ** analyze_text *)

Lemma re_sub_squeeze p text :
  exists segs,
    split_on p text segs /\
    re_sub [ClassPlus p] [] text = Some (concat segs) /\
    concat segs = filter (fun c => negb (p c)) text.
Proof.
  destruct (finditer_total [ClassPlus p] text (consuming_class p)) as [[ps tl] Hs].
  exists (map fst ps ++ [tl]). unfold re_sub. rewrite Hs.
  assert (E : concat (map fst ps ++ [tl]) = concat (map fst ps) ++ tl).
  { rewrite concat_app. simpl. now rewrite app_nil_r. }
  split; [|split].
  - exact (scan_class_split p _ _ _ _ _ Hs).
  - rewrite E. do 3 f_equal. apply map_ext. intros gm. apply app_nil_r.
  - rewrite E. exact (scan_class_gaps p _ _ _ _ _ Hs).
Qed.

Lemma re_split_segments p text :
  exists segs,
    re_split [ClassPlus p] text = Some segs /\ split_on p text segs.
Proof.
  destruct (finditer_total [ClassPlus p] text (consuming_class p)) as [[ps tl] Hs].
  exists (map fst ps ++ [tl]). unfold re_split. rewrite Hs. split; auto.
  exact (scan_class_split p _ _ _ _ _ Hs).
Qed.

Lemma lstrip_nil p s : lstrip p s = [] <-> forallb p s = true.
Proof.
  induction s as [|c r IH]; simpl; [tauto|].
  destruct (p c); simpl; [exact IH | split; discriminate].
Qed.

(** A segment is dropped by the filter of [analyze_text] exactly when
    all of its characters are whitespace. *)
Lemma truthy_strip p s : truthy (strip p s) = negb (forallb p s).
Proof.
  unfold strip. destruct (forallb p s) eqn:E.
  - apply lstrip_nil in E. now rewrite E.
  - destruct (rstrip_prefix p (lstrip p s)) as (b & Eb & Hb).
    destruct (rstrip p (lstrip p s)) as [|c r]; [|reflexivity].
    simpl in Eb. destruct (lstrip p s) as [|c r] eqn:El.
    + apply lstrip_nil in El. congruence.
    + pose proof (lstrip_head p s c) as Hc. rewrite El in Hc.
      specialize (Hc eq_refl). subst b. simpl in Hb. now rewrite Hc in Hb.
Qed.

(** [analyze_text] returns a record, made of what the three walks
    return. *)
Lemma analyze_text_unfold text :
  exists found squeezed parts,
    re_findall word_pattern text = Some found /\
    re_sub space_pattern [] text = Some squeezed /\
    re_split terminator_pattern text = Some parts /\
    analyze_text text =
      Some (mkStats (length found) (length text) (length squeezed)
              (length (filter (fun s => negb (blank s)) parts))
              (most_common 5 (Counter (map normalize found)))).
Proof.
  destruct (findall_word_spans text) as (sp & Ew & _).
  destruct (re_sub_squeeze isspace text) as (segs & _ & Es & _).
  destruct (re_split_segments terminator text) as (parts & Et & _).
  do 3 eexists. repeat split; eauto.
  unfold analyze_text. fold space_pattern in Es. fold terminator_pattern in Et.
  rewrite Ew, Es, Et. simpl. do 3 f_equal.
  apply filter_ext. intros s. apply truthy_strip.
Qed.

(** C1.  The words that [analyze_text] extracts are the slices of the
    text at its maximal bounded runs, that is, at the runs of word
    characters, apostrophes and hyphens with a word boundary at both
    ends that no other such run contains; they are listed from left to
    right, and [words] is their number.  Empty input has none.  In terms
    of the maximal runs of these characters alone: each such run that has
    a word character gives one word, the run without the apostrophes and
    hyphens at its ends. *)
Theorem word_extraction_maximal_runs (text : str) :
  exists sp st,
    re_findall word_pattern text
      = Some (map (fun se => substr text (fst se) (snd se)) sp)
    /\ left_to_right sp
    /\ (forall s e, In (s, e) sp <-> maximal_run text s e)
    /\ (forall s e, In (s, e) sp <->
          exists a b, class_run text a b /\ trimmed_run text a b s e)
    /\ analyze_text text = Some st
    /\ words st = length sp
    /\ (text = [] -> words st = 0).
Proof.
  destruct (findall_word_spans text) as (sp & Ew & Hs & Hsp).
  destruct (analyze_text_unfold text) as (found & sq & parts & Ew' & _ & _ & Ea).
  rewrite Ew in Ew'. injection Ew' as <-.
  exists sp. eexists.
  split; [exact Ew|]. split; [assumption|]. split; [assumption|].
  split; [intros s e; rewrite Hsp; apply maximal_run_trimmed|].
  split; [exact Ea|]. simpl. split.
  - now rewrite length_map.
  - intros ->. rewrite length_map. destruct sp as [|[s e] sp']; [reflexivity|].
    destruct (proj1 (Hsp s e) (or_introl eq_refl)) as [Hrun _].
    apply bounded_run_le in Hrun as Hle. destruct Hrun. simpl in Hle. lia.
Qed.

(** C2.  [sentences] is the number of segments left when the text is
    split at each maximal run of [.], [!] and [?] and the segments that
    are empty or all whitespace are dropped; the segments are
    determined by the text.  ["One. Two"] has two sentences. *)
Theorem sentence_count_segments :
  (forall text : str,
    exists parts st,
      re_split terminator_pattern text = Some parts
      /\ split_on terminator text parts
      /\ (forall parts', split_on terminator text parts' -> parts' = parts)
      /\ analyze_text text = Some st
      /\ sentences st = length (filter (fun s => negb (blank s)) parts))
  /\ re_split terminator_pattern (lit "One. Two")
       = Some [lit "One"; lit " Two"]
  /\ option_map sentences (analyze_text (lit "One. Two")) = Some 2.
Proof.
  split; [|split; reflexivity].
  intros text.
  destruct (re_split_segments terminator text) as (parts & Et & Hsplit).
  destruct (analyze_text_unfold text) as (found & sq & parts' & _ & _ & Et' & Ea).
  fold terminator_pattern in Et. rewrite Et in Et'. injection Et' as <-.
  eexists parts, _. repeat split; eauto.
  intros parts' H'. exact (split_on_unique _ _ _ H' _ Hsplit).
Qed.

(** C5.  [characters] is the length of the text, and
    [characters_no_spaces] the length of what is left of it when every
    maximal run of whitespace is removed, which is the text without its
    whitespace characters; the second is at most the first. *)
Theorem character_counts (text : str) :
  exists segs st,
    analyze_text text = Some st
    /\ characters st = length text
    /\ split_on isspace text segs
    /\ characters_no_spaces st = length (concat segs)
    /\ concat segs = filter (fun c => negb (isspace c)) text
    /\ characters_no_spaces st <= characters st.
Proof.
  destruct (re_sub_squeeze isspace text) as (segs & Hsplit & Es & Ef).
  destruct (analyze_text_unfold text) as (found & sq & parts & _ & Es' & _ & Ea).
  fold space_pattern in Es. rewrite Es in Es'. injection Es' as <-.
  eexists segs, _. repeat split; eauto. simpl.
  rewrite Ef. apply filter_length_le.
Qed.

(** C6.  For the empty string every count is zero and there are no top
    words. *)
Theorem analyze_empty : analyze_text [] = Some (mkStats 0 0 0 0 []).
Proof. reflexivity. Qed.

(** C3.  The top words are in descending order of count, where the
    count of a word is the number of its occurrences among the
    lowercased, quote-stripped words; of two different top words with
    the same count, the one that occurs first among these words comes
    first.  For ["b a a b"] the top words are [b], then [a]. *)
Theorem top_words_order :
  (forall text : str,
    exists found st,
      re_findall word_pattern text = Some found
      /\ analyze_text text = Some st
      /\ descending (most_common_words st)
      /\ (forall a, In a (most_common_words st) ->
            snd a = count_occ str_dec (map normalize found) (fst a))
      /\ (forall a b,
            In a (most_common_words st) -> In b (most_common_words st) ->
            fst a <> fst b -> snd a = snd b ->
            index_of (fst a) (map normalize found)
              < index_of (fst b) (map normalize found) ->
            before a b (most_common_words st))
      /\ (forall a b,
            before a b (most_common_words st) -> snd a = snd b ->
            index_of (fst a) (map normalize found)
              < index_of (fst b) (map normalize found)))
  /\ option_map most_common_words (analyze_text (lit "b a a b"))
       = Some [(lit "b", 2); (lit "a", 2)].
Proof.
  split; [|reflexivity].
  intros text.
  destruct (analyze_text_unfold text) as (found & sq & parts & Ew & _ & _ & Ea).
  exists found. eexists. split; [exact Ew|]. split; [exact Ea|]. simpl.
  set (ws := map normalize found).
  destruct (most_common_spec 5 (Counter ws)) as (_ & Hdesc & Hties).
  assert (Hfwd : forall a b,
    before a b (most_common 5 (Counter ws)) -> snd a = snd b ->
    index_of (fst a) ws < index_of (fst b) ws).
  { intros a b Hab E. destruct (Hties a b Hab) as [Hlt|[_ Hcnt]]; [lia|].
    apply keys_Counter_order. now apply (before_map fst). }
  split; [assumption|]. split; [|split]; auto.
  - intros [w c] Hin. apply most_common_In in Hin. simpl.
    now apply Counter_count.
  - intros a b Ha Hb Hne E Hidx.
    destruct (before_total a b _ Ha Hb) as [H|H]; [congruence | assumption |].
    apply Hfwd in H; [lia | congruence].
Qed.

(** C4.  There are as many top words as there are distinct lowercased,
    quote-stripped words, but at most five; with five distinct words or
    fewer, each of them is a top word, and without words there is
    none. *)
Theorem top_words_length (text : str) :
  exists found st,
    re_findall word_pattern text = Some found
    /\ analyze_text text = Some st
    /\ length (most_common_words st)
         = Nat.min 5 (length (distinct (map normalize found)))
    /\ (length (distinct (map normalize found)) <= 5 ->
        forall w, In w (map normalize found) ->
                  In w (keys (most_common_words st)))
    /\ (found = [] -> most_common_words st = []).
Proof.
  destruct (analyze_text_unfold text) as (found & sq & parts & Ew & _ & _ & Ea).
  exists found. eexists. split; [exact Ew|]. split; [exact Ea|]. simpl.
  set (ws := map normalize found).
  destruct (most_common_spec 5 (Counter ws)) as (Hlen & _).
  split; [|split].
  - now rewrite Hlen, Counter_length.
  - intros Hle w Hw. unfold most_common.
    rewrite firstn_all2.
    + apply keys_Counter_In in Hw. unfold keys in *.
      apply in_map_iff in Hw as (a & <- & Ha). apply in_map.
      now apply (Permutation_in _ (sorted_desc_perm (Counter ws))).
    + rewrite <- (Permutation_length (sorted_desc_perm (Counter ws))).
      now rewrite Counter_length.
  - intros E. subst ws. rewrite E. reflexivity.
Qed.

Lemma normalize_fixed w : lowering_stable -> Forall lower_fixed (normalize w).
Proof. intros Hst. apply Forall_strip. now apply lower_from_fixed. Qed.

(** A string of fixed code points has no capital letter [A] to [Z]. *)
Lemma fixed_no_capital w : Forall lower_fixed w -> no_ascii_capital w.
Proof.
  intros H. apply forallb_forall. intros d Hd.
  rewrite Forall_forall in H. specialize (H d Hd [] []).
  unfold lower_char in H. destruct (between 65 90 d) eqn:E; [exfalso|reflexivity].
  assert (Ha : is_ascii d = true).
  { unfold is_ascii, between in *. apply andb_true_iff in E as [_ E].
    apply N.leb_le in E. apply N.ltb_lt. lia. }
  rewrite Ha in H. injection H as H. unfold ascii_lower in H.
  rewrite E in H. lia.
Qed.

(** C7, amended.  Every top word is the lowercase form of an extracted
    word, stripped of quotes: it has none of the capital letters [A] to
    [Z] and no character that lowercasing changes, so [str.lower] leaves
    it as it is, and it has no apostrophe or double quote at either end.
    (An uppercase character without a lowercase form stays in it.) *)
Theorem top_words_normalized (text : str) :
  lowering_stable ->
  exists found st,
    re_findall word_pattern text = Some found
    /\ analyze_text text = Some st
    /\ forall w c, In (w, c) (most_common_words st) ->
         no_ascii_capital w /\ Forall lower_fixed w
         /\ lowercase w /\ unquoted w
         /\ exists t, In t found /\ w = strip is_quote (str_lower t).
Proof.
  intros Hst.
  destruct (analyze_text_unfold text) as (found & sq & parts & Ew & _ & _ & Ea).
  exists found. eexists. split; [exact Ew|]. split; [exact Ea|]. simpl.
  intros w c Hin. apply most_common_In in Hin.
  apply (in_map fst) in Hin. simpl in Hin.
  apply -> (keys_Counter_In (map normalize found) w) in Hin.
  apply in_map_iff in Hin as (t & <- & Ht).
  pose proof (normalize_fixed t Hst) as Hfix.
  split; [now apply fixed_no_capital|]. split; [exact Hfix|].
  split; [now apply normalize_lowercase|].
  split; [apply strip_unquoted|]. now exists t.
Qed.

Lemma no_word_no_run text s e :
  forallb (fun c => negb (is_word c)) text = true -> ~ maximal_run text s e.
Proof.
  intros Hall Hmax. apply maximal_run_edges in Hmax as [Hs _].
  unfold word_at in Hs. destruct (nth_error text s) as [c|] eqn:E; [|discriminate].
  apply nth_error_In in E. rewrite forallb_forall in Hall.
  specialize (Hall c E). simpl in Hs. now rewrite Hs in Hall.
Qed.

(** C9.  [analyze_text] returns a record for every string.  For the
    empty string all of its fields are zero or empty; for a string
    without a word character there are no words and no top words; for a
    string without [.], [!] and [?] there is one sentence, or none if
    the string is empty or all whitespace. *)
Theorem analyze_text_total (text : str) :
  exists st,
    analyze_text text = Some st
    /\ (text = [] -> st = mkStats 0 0 0 0 [])
    /\ (forallb (fun c => negb (is_word c)) text = true ->
        words st = 0 /\ most_common_words st = [])
    /\ (free_of terminator text ->
        sentences st = if blank text then 0 else 1).
Proof.
  destruct (findall_word_spans text) as (sp & Ew & _ & Hsp).
  destruct (re_split_segments terminator text) as (parts & Et & Hsplit).
  destruct (analyze_text_unfold text) as (found & sq & parts' & Ew' & _ & Et' & Ea).
  fold terminator_pattern in Et.
  rewrite Ew in Ew'. injection Ew' as <-.
  rewrite Et in Et'. injection Et' as <-.
  eexists. split; [exact Ea|]. split; [|split].
  - intros ->.
    assert (E : analyze_text [] = Some (mkStats 0 0 0 0 [])) by reflexivity.
    rewrite E in Ea. congruence.
  - intros Hall. simpl.
    assert (sp = []) as ->; [|split; reflexivity].
    destruct sp as [|[s e] sp']; [reflexivity|].
    destruct (no_word_no_run text s e Hall). apply Hsp. now left.
  - intros Hfree. simpl.
    rewrite (split_on_unique _ _ _ Hsplit _ (split_end terminator text Hfree)).
    simpl. now destruct (blank text).
Qed.

(** C10.  Every extracted word starts and ends with a word character,
    so neither with an apostrophe nor with a hyphen, and all of its
    characters are word characters, apostrophes or hyphens; stripping
    quote characters changes neither the word nor its lowercase form. *)
Theorem tokens_need_no_stripping (text : str) :
  lowering_nonempty -> lowering_quote_free ->
  exists found,
    re_findall word_pattern text = Some found
    /\ forall t, In t found ->
         opt_word (hd_error t) = true
         /\ opt_word (last_char None t) = true
         /\ hd_error t <> Some APOSTROPHE /\ hd_error t <> Some HYPHEN
         /\ last_char None t <> Some APOSTROPHE
         /\ last_char None t <> Some HYPHEN
         /\ forallb word_class t = true
         /\ strip is_quote t = t
         /\ normalize t = str_lower t.
Proof.
  intros Hne Hq.
  destruct (findall_word_spans text) as (sp & Ew & _).
  eexists. split; [exact Ew|]. intros t Ht.
  destruct (findall_word_edges text _ t Ew Ht) as (Hhd & Hlast & Hall).
  assert (Hedge : forall o c, opt_word o = true -> o = Some c ->
                              is_quote c = false /\ c <> APOSTROPHE /\ c <> HYPHEN).
  { intros o c Ho ->. simpl in Ho. split; [now apply word_not_quote|].
    now apply word_not_hyphen. }
  assert (Hun : unquoted t).
  { split; intros c Hc.
    - now destruct (Hedge _ _ Hhd Hc).
    - now destruct (Hedge _ _ Hlast Hc). }
  split; [assumption|]. split; [assumption|].
  repeat split; try assumption.
  - intros E. now destruct (Hedge _ _ Hhd E) as (_ & ? & _).
  - intros E. now destruct (Hedge _ _ Hhd E) as (_ & _ & ?).
  - intros E. now destruct (Hedge _ _ Hlast E) as (_ & ? & _).
  - intros E. now destruct (Hedge _ _ Hlast E) as (_ & _ & ?).
  - apply strip_id; apply Hun.
  - unfold normalize. apply strip_id; now apply lower_unquoted.
Qed.

(** ** format_report *)

Lemma string_of_uint_digits d :
  Forall is_digit (lit (NilEmpty.string_of_uint d)).
Proof.
  induction d; simpl; constructor; auto; unfold is_digit; simpl; lia.
Qed.

(** [str(n)] is a non-empty string of decimal digits. *)
Lemma str_of_nat_digits n :
  Forall is_digit (str_of_nat n) /\ str_of_nat n <> [].
Proof.
  unfold str_of_nat, NilZero.string_of_uint.
  destruct (Nat.to_uint n) eqn:E;
    try (split; [apply string_of_uint_digits | discriminate]).
  split; [|discriminate]. repeat constructor; unfold is_digit; simpl; lia.
Qed.

Lemma last_char_snoc (s : str) c a : last_char a (s ++ [c]) = Some c.
Proof. now rewrite last_char_app. Qed.

Lemma count_newline_digits n : count_occ N.eq_dec (str_of_nat n) NEWLINE = 0.
Proof.
  apply count_occ_not_In. intros Hin.
  destruct (str_of_nat_digits n) as [Hall _].
  rewrite Forall_forall in Hall. specialize (Hall _ Hin).
  unfold is_digit, NEWLINE in Hall. lia.
Qed.

Lemma ends_with_app c (x y : str) : ends_with c y -> ends_with c (x ++ y).
Proof. intros (r & ->). exists (x ++ r). now rewrite app_assoc. Qed.

Lemma ends_with_last c (s : str) a : ends_with c s -> last_char a s = Some c.
Proof. intros (r & ->). apply last_char_snoc. Qed.

Lemma format_item_end wc : ends_with RPAREN (format_item wc).
Proof.
  unfold format_item. do 2 apply ends_with_app.
  exists (str_of_nat (snd wc)). reflexivity.
Qed.

Lemma format_items_end rest : forall wc,
  ends_with RPAREN
    (format_item wc ++ concat (map (fun x => lit ", " ++ format_item x) rest)).
Proof.
  induction rest as [|x r IH]; intros wc; cbn [map concat].
  - rewrite app_nil_r. apply format_item_end.
  - rewrite <- app_assoc. do 2 apply ends_with_app. apply IH.
Qed.

Lemma count_newline_item wc :
  ~ In NEWLINE (fst wc) -> count_occ N.eq_dec (format_item wc) NEWLINE = 0.
Proof.
  intros Hwc. unfold format_item.
  rewrite !count_occ_app, count_newline_digits.
  apply (count_occ_not_In N.eq_dec) in Hwc.
  unfold str, char in *. now rewrite Hwc.
Qed.

Lemma count_newline_items rest : forall wc,
  Forall (fun wc => ~ In NEWLINE (fst wc)) (wc :: rest) ->
  count_occ N.eq_dec
    (format_item wc ++ concat (map (fun x => lit ", " ++ format_item x) rest))
    NEWLINE = 0.
Proof.
  induction rest as [|x r IH]; intros wc H; inversion H as [|? ? Hwc Hr]; subst;
    cbn [map concat].
  - now rewrite app_nil_r, count_newline_item.
  - rewrite <- app_assoc, !count_occ_app, count_newline_item by assumption.
    rewrite <- count_occ_app, IH by assumption. reflexivity.
Qed.

Lemma format_report_flat (st : stats) :
  format_report st =
    lit "Words: " ++ str_of_nat (words st) ++ [NEWLINE]
    ++ lit "Characters (including spaces): " ++ str_of_nat (characters st)
    ++ [NEWLINE]
    ++ lit "Characters (no spaces): " ++ str_of_nat (characters_no_spaces st)
    ++ [NEWLINE]
    ++ lit "Sentences: " ++ str_of_nat (sentences st)
    ++ match most_common_words st with
       | [] => []
       | wc :: rest =>
           [NEWLINE] ++ lit "Top words: " ++ format_item wc
           ++ concat (map (fun x => lit ", " ++ format_item x) rest)
       end.
Proof.
  unfold format_report.
  destruct (most_common_words st) as [|wc rest];
    cbn [truthy join map concat app]; rewrite ?map_map;
    repeat rewrite <- app_assoc; repeat rewrite app_nil_r; reflexivity.
Qed.

(** *** What [str(n)] is *)

Lemma decimal_value_acc d : forall acc,
  fold_left (fun acc c => 10 * acc + digit_value c)
    (lit (NilEmpty.string_of_uint d)) acc
  = Nat.of_uint_acc d acc.
Proof.
  induction d; intros acc;
    cbn [NilEmpty.string_of_uint lit fold_left Nat.of_uint_acc];
    [reflexivity | rewrite IHd, Nat.tail_mul_spec; f_equal;
                   unfold digit_value; vm_compute (N.to_nat _); lia ..].
Qed.

Lemma to_uint_normal n : Nat.to_uint n = Decimal.unorm (Nat.to_uint n).
Proof.
  pose proof (DecimalNat.Unsigned.to_of (Nat.to_uint n)) as H.
  now rewrite DecimalNat.Unsigned.of_to in H.
Qed.

Lemma nzhead_head d :
  match Decimal.nzhead d with Decimal.D0 _ => False | _ => True end.
Proof. induction d; simpl; auto. Qed.

(** [str(n)] is the decimal numeral of [n]: digits only, of value [n],
    without a leading zero unless it is the single digit [0]. *)
Lemma str_of_nat_decimal n :
  Forall is_digit (str_of_nat n)
  /\ decimal_value (str_of_nat n) = n
  /\ (hd_error (str_of_nat n) = Some 48%N -> str_of_nat n = [48%N]).
Proof.
  split; [apply str_of_nat_digits|]. unfold str_of_nat, decimal_value.
  pose proof (to_uint_normal n) as E.
  pose proof (DecimalNat.Unsigned.of_to n) as V. unfold Nat.of_uint in V.
  pose proof (nzhead_head (Nat.to_uint n)) as Hh.
  unfold Decimal.unorm in E.
  destruct (Nat.to_uint n) as [|d|d|d|d|d|d|d|d|d|d] eqn:Ed; split;
    try (destruct (Decimal.nzhead Decimal.Nil); discriminate E);
    try (rewrite <- V; apply decimal_value_acc);
    try (cbn; intros H; discriminate H).
  destruct (Decimal.nzhead (Decimal.D0 d)) eqn:En;
    try contradiction; try discriminate E.
  injection E as ->. reflexivity.
Qed.

(** C8.  The report is the four count lines in their fixed order, each
    a label and the decimal numeral of the count, separated by
    newlines; exactly when there are top words they are followed by a
    newline and the line of the top words, each as the word, an opening
    parenthesis, the decimal numeral of its count and a closing
    parenthesis, separated by a comma and a space and in the order of
    the record.  The report does not end with a newline.  When no top
    word contains a newline the report has four lines, or five with the
    line of the top words. *)
Theorem format_report_layout (st : stats) :
  format_report st =
    lit "Words: " ++ str_of_nat (words st) ++ [NEWLINE]
    ++ lit "Characters (including spaces): " ++ str_of_nat (characters st)
    ++ [NEWLINE]
    ++ lit "Characters (no spaces): " ++ str_of_nat (characters_no_spaces st)
    ++ [NEWLINE]
    ++ lit "Sentences: " ++ str_of_nat (sentences st)
    ++ match most_common_words st with
       | [] => []
       | wc :: rest =>
           [NEWLINE] ++ lit "Top words: "
           ++ (fst wc ++ lit "(" ++ str_of_nat (snd wc) ++ lit ")")
           ++ concat (map (fun x => lit ", " ++ fst x ++ lit "("
                                    ++ str_of_nat (snd x) ++ lit ")") rest)
       end
  /\ (forall n,
        Forall is_digit (str_of_nat n)
        /\ decimal_value (str_of_nat n) = n
        /\ (hd_error (str_of_nat n) = Some 48%N -> str_of_nat n = [48%N]))
  /\ last_char None (format_report st) <> Some NEWLINE
  /\ (Forall (fun wc => ~ In NEWLINE (fst wc)) (most_common_words st) ->
      count_occ N.eq_dec (format_report st) NEWLINE
        = if truthy (most_common_words st) then 4 else 3).
Proof.
  split; [apply format_report_flat|]. split; [exact str_of_nat_decimal|].
  rewrite format_report_flat. split.
  - assert (H : exists c, c <> NEWLINE /\ ends_with c
              (str_of_nat (sentences st) ++
               match most_common_words st with
               | [] => []
               | wc :: rest =>
                   [NEWLINE] ++ lit "Top words: " ++ format_item wc
                   ++ concat (map (fun x => lit ", " ++ format_item x) rest)
               end)).
    { destruct (most_common_words st) as [|wc rest].
      - destruct (str_of_nat_digits (sentences st)) as [Hall Hne].
        destruct (exists_last Hne) as (r & d & E).
        exists d. split.
        + rewrite E in Hall. apply Forall_app in Hall as [_ Hd].
          inversion Hd as [|? ? Hdig _]; subst.
          unfold is_digit, NEWLINE in *. lia.
        + rewrite app_nil_r. now exists r.
      - exists RPAREN. split; [discriminate|].
        do 3 apply ends_with_app. apply format_items_end. }
    destruct H as (c & Hc & Hend).
    rewrite (ends_with_last c).
    + congruence.
    + do 10 apply ends_with_app. exact Hend.
  - intros Hall.
    destruct (most_common_words st) as [|wc rest].
    + rewrite !count_occ_app, !count_newline_digits. reflexivity.
    + pose proof (count_newline_items rest wc Hall) as H0.
      rewrite count_occ_app in H0. apply Nat.eq_add_0 in H0 as [H1 H2].
      rewrite !count_occ_app, !count_newline_digits, H1, H2. reflexivity.
Qed.

(** * Further properties of [analyze_text] *)

(** ** Bounds *)

Lemma scan_pieces_le pat :
  consuming pat ->
  forall fuel prev rest ps,
    scan pat fuel prev rest = Some ps -> length (fst ps) <= length rest.
Proof.
  intros Hpat fuel; induction fuel as [|fuel IH]; intros prev rest ps; [discriminate|].
  cbn [scan]. destruct (match_here pat prev rest) as [[m tl]|] eqn:Hm.
  - apply Hpat in Hm as [-> Hne].
    destruct (scan pat fuel (last_char prev m) tl) as [[ps' tl']|] eqn:Hs; [|discriminate].
    intros [= <-]. apply IH in Hs. simpl in *. rewrite length_app.
    destruct m; [congruence | simpl; lia].
  - destruct rest as [|c r]; [now intros [= <-]|].
    destruct (scan pat fuel (Some c) r) as [ps'|] eqn:Hs; [|discriminate].
    intros [= <-]. apply IH in Hs.
    destruct ps' as [[|[g m] ps''] tl]; simpl in *; lia.
Qed.

Lemma nonblank_has_char s :
  blank s = false -> 1 <= length (filter (fun c => negb (isspace c)) s).
Proof.
  unfold blank. induction s as [|c r IH]; simpl; [discriminate|].
  destruct (isspace c); simpl; [exact IH | lia].
Qed.

(** However a text is split, it has at least as many characters that
    are not whitespace as segments that are not blank. *)
Lemma split_on_nonblank_le p text segs :
  split_on p text segs ->
  length (filter (fun s => negb (blank s)) segs)
    <= length (filter (fun c => negb (isspace c)) text).
Proof.
  induction 1 as [seg _ | seg sep rest segs _ _ _ _ _ IH].
  - simpl. destruct (blank seg) eqn:E; simpl; [lia|].
    now apply nonblank_has_char.
  - rewrite !filter_app, !length_app. simpl.
    destruct (blank seg) eqn:E; simpl; [lia|].
    apply nonblank_has_char in E. lia.
Qed.

(** A token has at least one word character. *)
Lemma filter_word_token t :
  opt_word (hd_error t) = true -> 1 <= length (filter is_word t).
Proof. destruct t as [|c r]; simpl; [discriminate|]. intros ->. simpl. lia. Qed.

Lemma unparse_tokens_le (q : char -> bool) (ps : list (str * str)) tl :
  Forall (fun gm => 1 <= length (filter q (snd gm))) ps ->
  length ps <= length (filter q (unparse (ps, tl))).
Proof.
  unfold unparse. simpl. induction 1 as [|[g m] ps Hm _ IH]; simpl; [lia|].
  rewrite !filter_app, !length_app in *. simpl in Hm. lia.
Qed.

(** X1.  The counts bound one another: there are at most as many words as
    word characters, so as characters; at most as many sentences as
    characters that are not whitespace; and at most as many top words as
    words. *)
Theorem counts_bounded (text : str) :
  exists st,
    analyze_text text = Some st
    /\ words st <= length (filter is_word text)
    /\ words st <= characters st
    /\ sentences st <= characters_no_spaces st
    /\ characters_no_spaces st <= characters st
    /\ length (most_common_words st) <= words st.
Proof.
  destruct (finditer_total word_pattern text consuming_word) as [[ps tl] Hs].
  destruct (re_sub_squeeze isspace text) as (segs & _ & Es & Ef).
  destruct (re_split_segments terminator text) as (parts & Et & Hsplit).
  destruct (analyze_text_unfold text) as (found & sq & parts' & Ew & Es' & Et' & Ea).
  fold space_pattern in Es. fold terminator_pattern in Et.
  rewrite Es in Es'. injection Es' as <-.
  rewrite Et in Et'. injection Et' as <-.
  assert (Efound : found = map snd ps).
  { unfold re_findall in Ew. rewrite Hs in Ew. now injection Ew as <-. }
  eexists. split; [exact Ea|]. simpl.
  assert (Hw : length found <= length (filter is_word text)).
  { pose proof (scan_unparse _ consuming_word _ _ _ _ Hs) as Hu.
    subst found. rewrite length_map, <- Hu.
    apply unparse_tokens_le. apply Forall_forall. intros gm Hgm.
    apply filter_word_token.
    apply (findall_word_edges text (map snd ps) (snd gm) Ew).
    now apply in_map. }
  split; [exact Hw|]. split; [|split; [|split]].
  - etransitivity; [exact Hw | apply filter_length_le].
  - rewrite Ef. now apply (split_on_nonblank_le terminator).
  - rewrite Ef. apply filter_length_le.
  - destruct (most_common_spec 5 (Counter (map normalize found))) as (-> & _).
    rewrite Counter_length. unfold distinct.
    assert (H : length (nodup str_dec (map normalize found))
                <= length (map normalize found)).
    { apply NoDup_incl_length; [apply NoDup_nodup|].
      intros x Hx. now apply nodup_In in Hx. }
    rewrite length_map in H. lia.
Qed.

(** ** Texts without words *)

(** A word character lies in a bounded run. *)
Lemma word_in_bounded_run text k :
  word_at text k = true -> exists s e, bounded_run text s e.
Proof.
  intros Hk.
  destruct (word_run_start text k Hk) as (s & Hs & Hbs & Hws).
  destruct (word_run_end text (length text) k ltac:(lia) Hk) as (e & He & Hbe & Hwe).
  exists s, e. split; [lia|]. split; [|split; assumption].
  intros j Hj. apply word_at_class_at.
  destruct (Nat.le_gt_cases j k); [apply Hws | apply Hwe]; lia.
Qed.

(** A walk of the word pattern without a match: no bounded run starts
    at or after the position where it started. *)
Lemma scan_word_none text fuel : forall pos tl,
  scan word_pattern fuel (prev_at text pos) (skipn pos text) = Some ([], tl) ->
  forall s e, pos <= s -> ~ bounded_run text s e.
Proof.
  induction fuel as [|fuel IH]; intros pos tl; [discriminate|].
  cbn [scan]. pose proof (match_word_at text pos) as Hm.
  destruct (match_here _ _ _) as [[m tl']|].
  - destruct (scan _ fuel _ _) as [[ps' tl'']|]; discriminate.
  - destruct (skipn pos text) as [|c r] eqn:E.
    + intros _ s e Hs Hrun. apply bounded_run_le in Hrun as Hle.
      destruct Hrun as (Hlt & _).
      assert (length (skipn pos text) = 0) by now rewrite E.
      rewrite length_skipn in *. lia.
    + destruct (skipn_cons_eq _ _ _ _ E) as (Ec & Er & Hlt).
      replace (scan word_pattern fuel (Some c) r)
        with (scan word_pattern fuel (prev_at text (S pos)) (skipn (S pos) text))
        by (cbn [prev_at]; now rewrite Ec, Er).
      destruct (scan _ fuel _ _) as [[[|[g m] ps'] tl']|] eqn:Hs; try discriminate.
      intros _ s e Hle. destruct (Nat.eq_dec s pos) as [->|]; [apply Hm|].
      apply (IH _ _ Hs). lia.
Qed.

Lemma findall_none_iff text :
  re_findall word_pattern text = Some []
  <-> forallb (fun c => negb (is_word c)) text = true.
Proof.
  split.
  - intros Ew. apply forallb_forall. intros c Hc.
    destruct (is_word c) eqn:Hw; [exfalso|reflexivity].
    apply In_nth_error in Hc as (k & Hk).
    destruct (word_in_bounded_run text k) as (s & e & Hrun).
    { unfold word_at. now rewrite Hk. }
    unfold re_findall, finditer in Ew.
    destruct (scan _ _ _ _) as [[ps tl]|] eqn:Hs; [|discriminate].
    injection Ew as Ew. apply map_eq_nil in Ew. subst ps.
    apply (scan_word_none text _ 0 tl Hs s e); [lia | exact Hrun].
  - intros Hall. destruct (findall_word_spans text) as (sp & Ew & _ & Hsp).
    rewrite Ew. destruct sp as [|[s e] sp']; [reflexivity|].
    destruct (no_word_no_run text s e Hall). apply Hsp. now left.
Qed.

Lemma most_common_nil n cnt : 0 < n -> most_common n cnt = [] -> cnt = [].
Proof.
  intros Hn H. apply (f_equal (@length _)) in H.
  rewrite (proj1 (most_common_spec n cnt)) in H. simpl in H.
  destruct cnt; [reflexivity | simpl in H; lia].
Qed.

Lemma Counter_nil ws : Counter ws = [] -> ws = [].
Proof.
  destruct ws as [|w ws]; [reflexivity|]. intros H.
  assert (Hin : In w (keys (Counter (w :: ws)))) by (apply keys_Counter_In; now left).
  rewrite H in Hin. destruct Hin.
Qed.

Lemma format_items_last rest : forall wc,
  exists init last pre,
    wc :: rest = init ++ [last]
    /\ format_item wc ++ concat (map (fun x => lit ", " ++ format_item x) rest)
       = pre ++ format_item last.
Proof.
  induction rest as [|x r IH]; intros wc; cbn [map concat].
  - exists [], wc, []. split; [reflexivity | now rewrite app_nil_r].
  - destruct (IH x) as (init & last & pre & E & Ei).
    exists (wc :: init), last, (format_item wc ++ lit ", " ++ pre).
    split; [now rewrite E|].
    unfold str, char in *.
    rewrite <- !app_assoc. do 2 f_equal. exact Ei.
Qed.

(** X2.  There are no words exactly when the text has no word
    character, and exactly then there are no top words.  The report is
    then the four count lines and ends with the sentence count;
    otherwise it ends with the last top word, as the word, its count in
    parentheses. *)
Theorem no_words_iff (text : str) :
  exists st,
    analyze_text text = Some st
    /\ (words st = 0 <-> forallb (fun c => negb (is_word c)) text = true)
    /\ (most_common_words st = [] <-> words st = 0)
    /\ (words st = 0 ->
        format_report st
        = lit "Words: " ++ str_of_nat 0 ++ [NEWLINE]
          ++ lit "Characters (including spaces): "
          ++ str_of_nat (characters st) ++ [NEWLINE]
          ++ lit "Characters (no spaces): "
          ++ str_of_nat (characters_no_spaces st) ++ [NEWLINE]
          ++ lit "Sentences: " ++ str_of_nat (sentences st))
    /\ (words st <> 0 ->
        exists init last pre,
          most_common_words st = init ++ [last]
          /\ format_report st
             = pre ++ fst last ++ lit "(" ++ str_of_nat (snd last) ++ lit ")").
Proof.
  destruct (analyze_text_unfold text) as (found & sq & parts & Ew & _ & _ & Ea).
  eexists. split; [exact Ea|]. simpl.
  assert (Hnil : length found = 0 <-> found = []).
  { split; [apply length_zero_iff_nil | now intros ->]. }
  assert (Htop : most_common 5 (Counter (map normalize found)) = []
                 <-> length found = 0).
  { rewrite Hnil. split.
    - intros H. apply most_common_nil in H; [|lia].
      apply Counter_nil in H. now apply map_eq_nil in H.
    - now intros ->. }
  split; [|split; [exact Htop|split]].
  - rewrite Hnil, <- findall_none_iff, Ew. split; congruence.
  - intros H0. rewrite format_report_flat.
    cbn [words characters characters_no_spaces sentences most_common_words].
    rewrite H0. apply Htop in H0. rewrite H0, app_nil_r. reflexivity.
  - intros Hn. rewrite format_report_flat.
    cbn [words characters characters_no_spaces sentences most_common_words].
    destruct (most_common 5 (Counter (map normalize found))) as [|wc rest] eqn:E.
    + exfalso. apply Hn, Htop. reflexivity.
    + destruct (format_items_last rest wc) as (init & last & pre & El & Ei).
      exists init, last.
      exists (lit "Words: " ++ str_of_nat (length found) ++ [NEWLINE]
              ++ lit "Characters (including spaces): "
              ++ str_of_nat (length text) ++ [NEWLINE]
              ++ lit "Characters (no spaces): "
              ++ str_of_nat (length sq) ++ [NEWLINE]
              ++ lit "Sentences: "
              ++ str_of_nat (length (filter (fun s => negb (blank s)) parts))
              ++ [NEWLINE] ++ lit "Top words: " ++ pre).
      split; [exact El|].
      rewrite Ei. unfold format_item, str, char in *.
      rewrite <- !app_assoc. reflexivity.
Qed.

(** ** The counts of the top words *)

Lemma counter_add_sum w cnt :
  list_sum (map snd (counter_add w cnt)) = S (list_sum (map snd cnt)).
Proof.
  induction cnt as [|[k n] r IH]; simpl; [reflexivity|].
  destruct (str_eqb k w); simpl; [reflexivity | rewrite IH; lia].
Qed.

(** The counts of a counter add up to the number of counted words. *)
Lemma Counter_sum ws : list_sum (map snd (Counter ws)) = length ws.
Proof.
  induction ws as [|x ws IH] using rev_ind; [reflexivity|].
  rewrite Counter_snoc, counter_add_sum, IH, length_app. simpl. lia.
Qed.

Lemma list_sum_firstn n : forall l, list_sum (firstn n l) <= list_sum l.
Proof.
  induction n as [|n IH]; intros [|x r]; simpl; try lia.
  specialize (IH r). lia.
Qed.

Lemma list_sum_In x l : In x l -> x <= list_sum l.
Proof.
  induction l as [|y r IH]; simpl; [tauto|].
  intros [->|H]; [lia | apply IH in H; lia].
Qed.

Lemma NoDup_firstn {A} n : forall l : list A, NoDup l -> NoDup (firstn n l).
Proof.
  intros l H. rewrite <- (firstn_skipn n l) in H.
  now apply NoDup_app_remove_r in H.
Qed.

(** X3.  No word occurs twice among the top words; the count of a top
    word is at least one; the counts of the top words add up to at most
    the number of words, and to exactly that number when there are no
    more than five distinct words. *)
Theorem top_counts (text : str) :
  exists found st,
    re_findall word_pattern text = Some found
    /\ analyze_text text = Some st
    /\ NoDup (keys (most_common_words st))
    /\ (forall a, In a (most_common_words st) -> 1 <= snd a <= words st)
    /\ list_sum (map snd (most_common_words st)) <= words st
    /\ (length (distinct (map normalize found)) <= 5 ->
        list_sum (map snd (most_common_words st)) = words st).
Proof.
  destruct (analyze_text_unfold text) as (found & sq & parts & Ew & _ & _ & Ea).
  exists found. eexists. split; [exact Ew|]. split; [exact Ea|]. simpl.
  set (ws := map normalize found).
  assert (Hlen : length ws = length found) by apply length_map.
  assert (Hsum : list_sum (map snd (sorted_desc (Counter ws))) = length found).
  { rewrite <- Hlen, <- Counter_sum.
    apply Permutation_list_sum, Permutation_map, Permutation_sym, sorted_desc_perm. }
  assert (Hle : list_sum (map snd (most_common 5 (Counter ws))) <= length found).
  { unfold most_common. rewrite <- Hsum, <- firstn_map. apply list_sum_firstn. }
  split; [|split; [|split]]; auto.
  - unfold most_common, keys. rewrite <- firstn_map. apply NoDup_firstn.
    apply (Permutation_NoDup (l := keys (Counter ws))).
    + apply Permutation_map, sorted_desc_perm.
    + apply keys_Counter_NoDup.
  - intros [w c] Hin. simpl. split.
    + apply most_common_In in Hin as Hin'.
      pose proof (Counter_count _ _ _ Hin') as ->.
      apply (in_map fst) in Hin'. simpl in Hin'.
      apply -> (keys_Counter_In ws w) in Hin'.
      apply (count_occ_In str_dec) in Hin'. lia.
    + etransitivity; [|exact Hle].
      apply list_sum_In. now apply (in_map snd) in Hin.
  - intros H5. unfold most_common. rewrite firstn_all2; [exact Hsum|].
    rewrite <- (Permutation_length (sorted_desc_perm (Counter ws))).
    now rewrite Counter_length.
Qed.

(** ** Words on both sides of a separator *)

Lemma scan_functional pat f1 f2 prev rest p1 p2 :
  scan pat f1 prev rest = Some p1 -> scan pat f2 prev rest = Some p2 -> p1 = p2.
Proof.
  intros H1 H2.
  pose proof (scan_more_fuel _ _ _ _ _ H1 (Nat.max f1 f2) ltac:(lia)) as H1'.
  pose proof (scan_more_fuel _ _ _ _ _ H2 (Nat.max f1 f2) ltac:(lia)) as H2'.
  congruence.
Qed.

Lemma not_class_not_word_char c : word_class c = false -> is_word c = false.
Proof. unfold word_class. now destruct (is_word c). Qed.

Lemma class_plus_sep sp b x :
  word_class sp = false ->
  class_plus word_class (guard ends_at_boundary) (x ++ sp :: b)
  = option_map (fun mt : str * str => (fst mt, snd mt ++ sp :: b))
      (class_plus word_class (guard ends_at_boundary) x).
Proof.
  intros Hsp. induction x as [|c r IH]; simpl; [now rewrite Hsp|].
  destruct (word_class c); [|reflexivity]. rewrite IH.
  destruct (class_plus word_class (guard ends_at_boundary) r) as [[m tl]|];
    [reflexivity|]. simpl.
  unfold guard, ends_at_boundary, at_boundary.
  destruct r as [|d r']; simpl.
  - rewrite (not_class_not_word_char _ Hsp). now destruct (xorb _ false).
  - now destruct (xorb _ _).
Qed.

Lemma match_word_sep sp b prev x :
  word_class sp = false ->
  match_here word_pattern prev (x ++ sp :: b)
  = option_map (fun mt : str * str => (fst mt, snd mt ++ sp :: b))
      (match_here word_pattern prev x).
Proof.
  intros Hsp. rewrite !match_word, class_plus_sep by assumption.
  replace (at_boundary prev (hd_error (x ++ sp :: b)))
    with (at_boundary prev (hd_error x)).
  - now destruct (at_boundary prev (hd_error x)).
  - destruct x; simpl; [|reflexivity].
    unfold at_boundary. simpl. now rewrite (not_class_not_word_char _ Hsp).
Qed.

(** Of the character before the position the word pattern only sees
    whether it is a word character. *)
Lemma scan_word_prev prev prev' fuel rest :
  opt_word prev = opt_word prev' ->
  scan word_pattern fuel prev rest = scan word_pattern fuel prev' rest.
Proof.
  intros E. destruct fuel as [|fuel]; [reflexivity|]. cbn [scan].
  assert (Em : match_here word_pattern prev rest = match_here word_pattern prev' rest).
  { rewrite !match_word. unfold at_boundary. now rewrite E. }
  rewrite Em. destruct (match_here word_pattern prev' rest) as [[m tl]|] eqn:Hm;
    [|reflexivity].
  apply consuming_word in Hm as [_ Hne].
  now rewrite (last_char_nonempty m prev prev').
Qed.

Lemma matches_push_gap c (ps : pieces) :
  map snd (fst (push_gap c ps)) = map snd (fst ps).
Proof. destruct ps as [[|[g m] ps'] tl]; reflexivity. Qed.

Lemma scan_word_sep sp b wb :
  word_class sp = false ->
  re_findall word_pattern b = Some wb ->
  forall fuel prev x ps,
    scan word_pattern fuel prev (x ++ sp :: b) = Some ps ->
    exists psa,
      scan word_pattern (S (length x)) prev x = Some psa
      /\ map snd (fst ps) = map snd (fst psa) ++ wb.
Proof.
  intros Hsp Hb. induction fuel as [|fuel IH]; intros prev x ps; [discriminate|].
  cbn [scan]. rewrite match_word_sep by assumption.
  destruct (match_here word_pattern prev x) as [[m tl]|] eqn:Hm; cbn [option_map fst snd].
  - destruct (scan _ fuel _ _) as [[ps' tl']|] eqn:Hs; [|discriminate].
    intros [= <-]. destruct (IH _ _ _ Hs) as (psa & Ha & E).
    apply consuming_word in Hm as Hm'. destruct Hm' as [-> Hne].
    destruct psa as [psa tla]. exists (([], m) :: psa, tla).
    split; [|simpl in *; now rewrite E].
    rewrite (scan_more_fuel _ _ _ _ _ Ha (length (m ++ tl))); [reflexivity|].
    rewrite length_app. destruct m; [congruence | simpl; lia].
  - destruct x as [|c r]; cbn [app].
    + destruct (scan _ fuel _ _) as [ps0|] eqn:Hs; [|discriminate].
      intros [= <-]. exists ([], []). split; [reflexivity|].
      rewrite matches_push_gap. simpl.
      unfold re_findall, finditer in Hb.
      destruct (scan word_pattern (S (length b)) None b) as [[psb tlb]|] eqn:Hsb;
        [|discriminate].
      injection Hb as <-.
      rewrite (scan_word_prev (Some sp) None) in Hs
        by (simpl; apply (not_class_not_word_char _ Hsp)).
      now rewrite (scan_functional _ _ _ _ _ _ _ Hs Hsb).
    + destruct (scan _ fuel _ _) as [ps0|] eqn:Hs; [|discriminate].
      intros [= <-]. destruct (IH _ _ _ Hs) as (psa & Ha & E).
      cbn [length]. rewrite Ha. eexists. split; [reflexivity|].
      now rewrite !matches_push_gap.
Qed.

(** X4.  The words of two texts joined by a character that is neither a
    word character nor an apostrophe nor a hyphen are the words of the
    first followed by the words of the second, so the word counts add
    up. *)
Theorem words_across_separator (a b : str) (sp : char) :
  word_class sp = false ->
  exists wa wb sa sb sab,
    re_findall word_pattern a = Some wa
    /\ re_findall word_pattern b = Some wb
    /\ re_findall word_pattern (a ++ sp :: b) = Some (wa ++ wb)
    /\ analyze_text a = Some sa /\ analyze_text b = Some sb
    /\ analyze_text (a ++ sp :: b) = Some sab
    /\ words sab = words sa + words sb.
Proof.
  intros Hsp.
  destruct (analyze_text_unfold a) as (wa & ? & ? & Ewa & _ & _ & Ea).
  destruct (analyze_text_unfold b) as (wb & ? & ? & Ewb & _ & _ & Eb).
  destruct (analyze_text_unfold (a ++ sp :: b)) as (wab & ? & ? & Ewab & _ & _ & Eab).
  assert (E : wab = wa ++ wb).
  { unfold re_findall, finditer in Ewab, Ewa.
    destruct (scan word_pattern (S (length (a ++ sp :: b))) None (a ++ sp :: b))
      as [[ps tl]|] eqn:Hs; [|discriminate].
    destruct (scan_word_sep sp b wb Hsp Ewb _ _ _ _ Hs) as (psa & Ha & E).
    rewrite Ha in Ewa. destruct psa as [psa tla].
    injection Ewa as <-. injection Ewab as <-. exact E. }
  subst wab. do 5 eexists.
  split; [exact Ewa|]. split; [exact Ewb|]. split; [exact Ewab|].
  split; [exact Ea|]. split; [exact Eb|]. split; [exact Eab|].
  simpl. apply length_app.
Qed.

(** ** Sentences on both sides of a terminator *)

Lemma split_each_nonempty p s : split_each p s <> [].
Proof.
  destruct s as [|c r]; simpl; [discriminate|].
  destruct (p c); [discriminate|]. destruct (split_each p r); discriminate.
Qed.

Lemma split_each_free p s : free_of p s -> split_each p s = [s].
Proof.
  unfold free_of. induction s as [|c r IH]; simpl; [reflexivity|].
  destruct (p c); simpl; [discriminate|]. intros H. now rewrite IH.
Qed.

Lemma split_each_app p a t b :
  p t = true ->
  split_each p (a ++ t :: b) = split_each p a ++ split_each p b.
Proof.
  intros Ht. induction a as [|c r IH]; simpl; [now rewrite Ht|].
  destruct (p c); [now rewrite IH|]. rewrite IH.
  pose proof (split_each_nonempty p r).
  destruct (split_each p r); [congruence | reflexivity].
Qed.

Lemma split_each_run p sep rest :
  forallb p sep = true ->
  filter (fun s => negb (blank s)) (split_each p (sep ++ rest))
  = filter (fun s => negb (blank s)) (split_each p rest).
Proof.
  induction sep as [|d sep' IH]; simpl; [reflexivity|].
  intros H. apply andb_true_iff in H as [-> H]. simpl. auto.
Qed.

(** The segments between maximal runs and the segments between single
    characters differ only by empty segments. *)
Lemma split_on_each p text segs :
  split_on p text segs ->
  filter (fun s => negb (blank s)) segs
  = filter (fun s => negb (blank s)) (split_each p text).
Proof.
  induction 1 as [seg Hseg | seg sep rest segs Hseg Hne Hsep _ _ IH].
  - now rewrite split_each_free.
  - destruct sep as [|t sep']; [congruence|]. simpl in Hsep.
    apply andb_true_iff in Hsep as [Ht Hsep].
    cbn [app]. rewrite split_each_app, split_each_free by assumption.
    cbn [app filter]. now rewrite split_each_run, IH.
Qed.

Lemma sentences_each text st :
  analyze_text text = Some st ->
  sentences st
  = length (filter (fun s => negb (blank s)) (split_each terminator text)).
Proof.
  destruct (re_split_segments terminator text) as (parts & Et & Hsplit).
  destruct (analyze_text_unfold text) as (found & sq & parts' & _ & _ & Et' & Ea).
  fold terminator_pattern in Et. rewrite Et in Et'. injection Et' as <-.
  rewrite Ea. intros [= <-]. simpl. now rewrite (split_on_each _ _ _ Hsplit).
Qed.

(** X5.  The sentence count is the number of segments that are not
    blank when the text is split at every single [.], [!] and [?].  The
    counts of two texts joined by one of these characters add up, and
    one of them at the end of a text does not change its count. *)
Theorem sentences_across_terminator (a b : str) (t : char) :
  terminator t = true ->
  exists sa sb sab sat,
    analyze_text a = Some sa /\ analyze_text b = Some sb
    /\ analyze_text (a ++ t :: b) = Some sab
    /\ analyze_text (a ++ [t]) = Some sat
    /\ sentences sa
       = length (filter (fun s => negb (blank s)) (split_each terminator a))
    /\ sentences sab = sentences sa + sentences sb
    /\ sentences sat = sentences sa.
Proof.
  intros Ht.
  destruct (analyze_text_unfold a) as (? & ? & ? & _ & _ & _ & Ea).
  destruct (analyze_text_unfold b) as (? & ? & ? & _ & _ & _ & Eb).
  destruct (analyze_text_unfold (a ++ t :: b)) as (? & ? & ? & _ & _ & _ & Eab).
  destruct (analyze_text_unfold (a ++ [t])) as (? & ? & ? & _ & _ & _ & Eat).
  do 4 eexists.
  split; [exact Ea|]. split; [exact Eb|]. split; [exact Eab|]. split; [exact Eat|].
  rewrite (sentences_each _ _ Ea), (sentences_each _ _ Eb),
    (sentences_each _ _ Eab), (sentences_each _ _ Eat).
  rewrite !split_each_app by assumption.
  rewrite !filter_app, !length_app. simpl. split; [reflexivity|]. split; lia.
Qed.

(** ** Letter case *)

Lemma class_plus_map f p k :
  (forall c, p (f c) = p c) ->
  (forall prev r, k (option_map f prev) (map f r) = map_result f (k prev r)) ->
  forall rest,
    class_plus p k (map f rest) = map_result f (class_plus p k rest).
Proof.
  intros Hp Hk. induction rest as [|c r IH]; simpl; [reflexivity|].
  rewrite Hp. destruct (p c); [|reflexivity]. rewrite IH.
  destruct (class_plus p k r) as [[m tl]|]; simpl; [reflexivity|].
  pose proof (Hk (Some c) r) as Hk'. simpl in Hk'. rewrite Hk'.
  now destruct (k (Some c) r) as [[m tl]|].
Qed.

Lemma match_here_map f pat :
  class_preserving f pat ->
  forall prev rest,
    match_here pat (option_map f prev) (map f rest)
    = map_result f (match_here pat prev rest).
Proof.
  intros [Hw Hpat]. induction Hpat as [|n pat Hn _ IH]; intros prev rest;
    [reflexivity|].
  destruct n as [|p]; cbn [match_here].
  - replace (at_boundary (option_map f prev) (hd_error (map f rest)))
      with (at_boundary prev (hd_error rest)).
    + destruct (at_boundary prev (hd_error rest)); [apply IH | reflexivity].
    + unfold at_boundary. destruct prev, rest; simpl; now rewrite ?Hw.
  - apply class_plus_map; assumption.
Qed.

Lemma last_char_map f m : forall prev,
  last_char (option_map f prev) (map f m) = option_map f (last_char prev m).
Proof. induction m as [|c r IH]; intros prev; simpl; [reflexivity | apply (IH (Some c))]. Qed.

Lemma push_gap_map f c ps :
  push_gap (f c) (map_pieces f ps) = map_pieces f (push_gap c ps).
Proof. destruct ps as [[|[g m] ps'] tl]; reflexivity. Qed.

(** The walk of a text with renamed characters is the renamed walk of
    the text. *)
Lemma scan_map f pat :
  class_preserving f pat ->
  forall fuel prev rest,
    scan pat fuel (option_map f prev) (map f rest)
    = option_map (map_pieces f) (scan pat fuel prev rest).
Proof.
  intros Hf. induction fuel as [|fuel IH]; intros prev rest; [reflexivity|].
  cbn [scan]. rewrite match_here_map by assumption.
  destruct (match_here pat prev rest) as [[m tl]|]; cbn [map_result option_map fst snd].
  - rewrite last_char_map, IH.
    now destruct (scan pat fuel (last_char prev m) tl) as [[ps' tl']|].
  - destruct rest as [|c r]; [reflexivity|]. cbn [map].
    pose proof (IH (Some c) r) as IH'. simpl in IH'. rewrite IH'.
    destruct (scan pat fuel (Some c) r) as [ps'|]; cbn [option_map]; [|reflexivity].
    now rewrite push_gap_map.
Qed.

Lemma finditer_map f pat text :
  class_preserving f pat ->
  finditer pat (map f text) = option_map (map_pieces f) (finditer pat text).
Proof.
  intros Hf. unfold finditer. rewrite length_map.
  exact (scan_map f pat Hf (S (length text)) None text).
Qed.

(** A property of the ASCII code points holds when it holds of each of
    the 128. *)
Lemma ascii_check (P : char -> bool) :
  forallb P ascii_range = true -> forall c, is_ascii c = true -> P c = true.
Proof.
  intros H c Hc. rewrite forallb_forall in H. apply H.
  unfold ascii_range. apply in_map_iff. exists (N.to_nat c).
  split; [apply N2Nat.id|]. apply in_seq.
  unfold is_ascii in Hc. apply N.ltb_lt in Hc. lia.
Qed.

Lemma ascii_lower_high c : is_ascii c = false -> ascii_lower c = c.
Proof.
  unfold is_ascii, ascii_lower, between. intros H. apply N.ltb_ge in H.
  destruct (N.leb_spec c 90); [lia|]. now rewrite andb_false_r.
Qed.

Lemma ascii_lower_word c : is_word (ascii_lower c) = is_word c.
Proof.
  destruct (is_ascii c) eqn:Ha; [|now rewrite ascii_lower_high].
  apply eqb_prop.
  apply (ascii_check (fun c => eqb (is_word (ascii_lower c)) (is_word c)));
    [vm_compute; reflexivity | assumption].
Qed.

Lemma ascii_lower_space c : isspace (ascii_lower c) = isspace c.
Proof.
  destruct (is_ascii c) eqn:Ha; [|now rewrite ascii_lower_high].
  apply eqb_prop.
  apply (ascii_check (fun c => eqb (isspace (ascii_lower c)) (isspace c)));
    [vm_compute; reflexivity | assumption].
Qed.

Lemma ascii_lower_terminator c : terminator (ascii_lower c) = terminator c.
Proof.
  destruct (is_ascii c) eqn:Ha; [|now rewrite ascii_lower_high].
  apply eqb_prop.
  apply (ascii_check
               (fun c => eqb (terminator (ascii_lower c)) (terminator c)));
    [vm_compute; reflexivity | assumption].
Qed.

Lemma ascii_lower_class c : word_class (ascii_lower c) = word_class c.
Proof.
  destruct (is_ascii c) eqn:Ha; [|now rewrite ascii_lower_high].
  apply eqb_prop.
  apply (ascii_check
               (fun c => eqb (word_class (ascii_lower c)) (word_class c)));
    [vm_compute; reflexivity | assumption].
Qed.

Lemma ascii_lower_idem c : ascii_lower (ascii_lower c) = ascii_lower c.
Proof.
  destruct (is_ascii c) eqn:Ha;
    [|rewrite (ascii_lower_high c Ha); exact (ascii_lower_high c Ha)].
  apply N.eqb_eq.
  apply (ascii_check
               (fun c => (ascii_lower (ascii_lower c) =? ascii_lower c)%N));
    [vm_compute; reflexivity | assumption].
Qed.

Lemma ascii_lower_ascii c : is_ascii (ascii_lower c) = is_ascii c.
Proof.
  destruct (is_ascii c) eqn:Ha; [|now rewrite ascii_lower_high].
  apply (ascii_check (fun c => is_ascii (ascii_lower c)));
    [vm_compute; reflexivity | assumption].
Qed.

(** On ASCII strings [str.lower] works character by character. *)
Lemma lower_from_ascii s : forall before,
  forallb is_ascii s = true -> lower_from before s = map ascii_lower s.
Proof.
  induction s as [|c r IH]; intros before; simpl; [reflexivity|].
  intros H. apply andb_true_iff in H as [Hc Hr].
  unfold lower_char. rewrite Hc. simpl. now rewrite IH.
Qed.

Lemma normalize_lower_ascii t :
  forallb is_ascii t = true -> normalize (map ascii_lower t) = normalize t.
Proof.
  intros Ht. unfold normalize, str_lower.
  rewrite !lower_from_ascii; auto.
  - rewrite map_map. f_equal. apply map_ext. intros c. apply ascii_lower_idem.
  - rewrite forallb_forall in *. intros c Hc.
    apply in_map_iff in Hc as (d & <- & Hd). rewrite ascii_lower_ascii. auto.
Qed.

(** What a walk returns is made of characters of the text. *)
Lemma findall_chars text found t c :
  re_findall word_pattern text = Some found -> In t found -> In c t -> In c text.
Proof.
  unfold re_findall, finditer.
  destruct (scan _ _ _ _) as [[ps tl]|] eqn:Hs; [|discriminate].
  intros [= <-] Ht Hc.
  apply (scan_unparse _ consuming_word) in Hs. rewrite <- Hs.
  unfold unparse. simpl. apply in_or_app. left.
  apply in_map_iff in Ht as ([g m] & <- & Hgm).
  apply in_concat. exists (g ++ m). split.
  - apply in_map_iff. now exists (g, m).
  - apply in_or_app. now right.
Qed.

Lemma blank_map_lower s : blank (map ascii_lower s) = blank s.
Proof.
  unfold blank. induction s as [|c r IH]; simpl; [reflexivity|].
  now rewrite ascii_lower_space, IH.
Qed.

(** For an ASCII text, the statistics of its lowercase form are its
    own. *)
Lemma analyze_lower_ascii text :
  forallb is_ascii text = true ->
  analyze_text (map ascii_lower text) = analyze_text text.
Proof.
  intros Hascii.
  destruct (analyze_text_unfold text) as (found & sq & parts & Ew & Es & Et & Ea).
  destruct (analyze_text_unfold (map ascii_lower text))
    as (found' & sq' & parts' & Ew' & Es' & Et' & Ea').
  rewrite Ea, Ea'.
  assert (Hw : class_preserving ascii_lower word_pattern).
  { split; [exact ascii_lower_word|].
    repeat constructor. exact ascii_lower_class. }
  assert (Hs : class_preserving ascii_lower space_pattern).
  { split; [exact ascii_lower_word|].
    repeat constructor. exact ascii_lower_space. }
  assert (Ht : class_preserving ascii_lower terminator_pattern).
  { split; [exact ascii_lower_word|].
    repeat constructor. exact ascii_lower_terminator. }
  pose proof Ew as Ew0.
  unfold re_findall in Ew, Ew'. unfold re_sub in Es, Es'. unfold re_split in Et, Et'.
  rewrite finditer_map in Ew', Es', Et' by assumption.
  destruct (finditer word_pattern text) as [[psw tlw]|]; [|discriminate].
  destruct (finditer space_pattern text) as [[pss tls]|]; [|discriminate].
  destruct (finditer terminator_pattern text) as [[pst tlt]|]; [|discriminate].
  simpl in Ew', Es', Et'.
  injection Ew as <-. injection Es as <-. injection Et as <-.
  injection Ew' as <-. injection Es' as <-. injection Et' as <-.
  f_equal. f_equal.
  - now rewrite !length_map.
  - apply length_map.
  - rewrite !length_app, !length_concat, !map_map, length_map. simpl.
    do 2 f_equal. apply map_ext. intros [g m]. simpl.
    now rewrite !length_app, length_map.
  - match goal with
    | |- length (filter _ ?l) = _ =>
        replace l with (map (map ascii_lower) (map fst pst ++ [tlt]))
          by (rewrite map_app, !map_map; reflexivity)
    end.
    rewrite filter_map_swap, length_map.
    f_equal. apply filter_ext. intros s. now rewrite blank_map_lower.
  - f_equal. f_equal. rewrite !map_map. apply map_ext_in. intros [g m] Hgm. simpl.
    apply normalize_lower_ascii. apply forallb_forall. intros c Hc.
    rewrite forallb_forall in Hascii. apply Hascii.
    apply (findall_chars text _ m c Ew0); [|exact Hc].
    now apply (in_map snd) in Hgm.
Qed.

(** X6.  Letter case does not matter: two ASCII texts with the same
    lowercase form have the same statistics, and so have a text and its
    lowercase form. *)
Theorem case_insensitive (t1 t2 : str) :
  forallb is_ascii t1 = true -> forallb is_ascii t2 = true ->
  str_lower t1 = str_lower t2 ->
  analyze_text t1 = analyze_text t2
  /\ analyze_text (str_lower t1) = analyze_text t1.
Proof.
  intros H1 H2 E. unfold str_lower in *.
  rewrite !lower_from_ascii in * by assumption.
  rewrite <- (analyze_lower_ascii t1 H1) at 1.
  rewrite <- (analyze_lower_ascii t2 H2). rewrite E. split; [reflexivity|].
  rewrite <- E. now apply analyze_lower_ascii.
Qed.

(** ** Top words of an ASCII text *)

Lemma normalize_plain t :
  forallb is_ascii t = true -> forallb word_class t = true ->
  Forall plain_char (normalize t).
Proof.
  intros Ha Hc. unfold normalize, str_lower. apply Forall_strip.
  rewrite lower_from_ascii by assumption.
  apply Forall_forall. intros d Hd. apply in_map_iff in Hd as (c & <- & Hin).
  rewrite forallb_forall in Ha, Hc. specialize (Ha c Hin). specialize (Hc c Hin).
  split; [|split].
  - now rewrite ascii_lower_ascii.
  - now rewrite ascii_lower_class.
  - apply ascii_lower_idem.
Qed.

Lemma plain_not_newline c : plain_char c -> c <> NEWLINE.
Proof.
  intros (_ & Hc & _) ->. unfold word_class in Hc.
  unfold NEWLINE in *. ascii_cases.
Qed.

Lemma report_newlines st :
  Forall (fun wc => ~ In NEWLINE (fst wc)) (most_common_words st) ->
  count_occ N.eq_dec (format_report st) NEWLINE
  = if truthy (most_common_words st) then 4 else 3.
Proof.
  intros Hall. rewrite format_report_flat.
  destruct (most_common_words st) as [|wc rest].
  - rewrite !count_occ_app, !count_newline_digits. reflexivity.
  - pose proof (count_newline_items rest wc Hall) as H0.
    rewrite count_occ_app in H0. apply Nat.eq_add_0 in H0 as [H1 H2].
    rewrite !count_occ_app, !count_newline_digits, H1, H2. reflexivity.
Qed.

(** X7.  The top words of an ASCII text are made of lowercase letters,
    digits, underscores, apostrophes and hyphens only, and the report of
    its statistics has four lines, or five when the text has a word. *)
Theorem ascii_report_lines (text : str) :
  forallb is_ascii text = true ->
  exists st,
    analyze_text text = Some st
    /\ (forall w c, In (w, c) (most_common_words st) -> Forall plain_char w)
    /\ count_occ N.eq_dec (format_report st) NEWLINE
       = if words st =? 0 then 3 else 4.
Proof.
  intros Hascii.
  destruct (analyze_text_unfold text) as (found & sq & parts & Ew & _ & _ & Ea).
  eexists. split; [exact Ea|].
  cbn [words most_common_words].
  assert (Hplain : forall w c,
            In (w, c) (most_common 5 (Counter (map normalize found))) ->
            Forall plain_char w).
  { intros w c Hin. apply most_common_In in Hin.
    apply (in_map fst) in Hin. simpl in Hin.
    apply -> (keys_Counter_In (map normalize found) w) in Hin.
    apply in_map_iff in Hin as (t & <- & Ht).
    apply normalize_plain.
    - apply forallb_forall. intros d Hd. rewrite forallb_forall in Hascii.
      apply Hascii. exact (findall_chars text found t d Ew Ht Hd).
    - now destruct (findall_word_edges text found t Ew Ht) as (_ & _ & ?). }
  split; [exact Hplain|].
  rewrite report_newlines.
  - cbn [most_common_words].
    destruct found as [|t found']; [reflexivity|]. simpl (length _ =? 0).
    destruct (most_common 5 (Counter (map normalize (t :: found')))) eqn:E;
      [|reflexivity].
    apply most_common_nil in E; [|lia]. apply Counter_nil in E. discriminate.
  - cbn [most_common_words]. apply Forall_forall. intros [w c] Hin Hnl. simpl in Hnl.
    specialize (Hplain w c Hin). rewrite Forall_forall in Hplain.
    now apply (plain_not_newline _ (Hplain _ Hnl)).
Qed.

(** ** The report and the counts *)

Lemma ord_inj a b : ord a = ord b -> a = b.
Proof.
  unfold ord. intros H. apply (f_equal ascii_of_N) in H.
  now rewrite !ascii_N_embedding in H.
Qed.

Lemma lit_inj a : forall b, lit a = lit b -> a = b.
Proof.
  induction a as [|x a IH]; intros [|y b]; simpl; try discriminate; auto.
  intros [= Hx Hr]. apply ord_inj in Hx. apply IH in Hr. congruence.
Qed.

Lemma to_uint_nonnil n : Nat.to_uint n <> Decimal.Nil.
Proof.
  pose proof (DecimalNat.Unsigned.to_of (Nat.to_uint n)) as H.
  rewrite DecimalNat.Unsigned.of_to in H. rewrite H.
  apply DecimalFacts.unorm_nonnil.
Qed.

(** [str(n)] determines [n]. *)
Lemma str_of_nat_inj n m : str_of_nat n = str_of_nat m -> n = m.
Proof.
  unfold str_of_nat. intros H. apply lit_inj in H.
  apply DecimalNat.Unsigned.to_uint_inj.
  assert (E : Some (Nat.to_uint n) = Some (Nat.to_uint m)).
  { rewrite <- !NilZero.usu by apply to_uint_nonnil. now rewrite H. }
  now injection E.
Qed.

Lemma digits_prefix_inj d1 : forall d2 r1 r2,
  Forall is_digit d1 -> Forall is_digit d2 ->
  (r1 = [] \/ hd_error r1 = Some NEWLINE) ->
  (r2 = [] \/ hd_error r2 = Some NEWLINE) ->
  d1 ++ r1 = d2 ++ r2 -> d1 = d2 /\ r1 = r2.
Proof.
  assert (Hnl : forall x, is_digit x -> x <> NEWLINE).
  { intros x Hx ->. unfold is_digit, NEWLINE in Hx. lia. }
  induction d1 as [|x d1 IH]; intros [|y d2] r1 r2 H1 H2 Hr1 Hr2 E; simpl in E.
  - now split.
  - exfalso. subst r1. inversion H2 as [|? ? Hy _]; subst.
    destruct Hr1 as [|Hr1]; [discriminate|]. simpl in Hr1.
    injection Hr1 as ->. now apply (Hnl NEWLINE).
  - exfalso. subst r2. inversion H1 as [|? ? Hx _]; subst.
    destruct Hr2 as [|Hr2]; [discriminate|]. simpl in Hr2.
    injection Hr2 as ->. now apply (Hnl NEWLINE).
  - injection E as -> E. inversion H1; inversion H2; subst.
    destruct (IH d2 r1 r2) as [-> ->]; auto.
Qed.

(** X8.  The report determines the four counts and whether there are
    top words: two records with the same report agree on them. *)
Theorem report_determines_counts (st1 st2 : stats) :
  format_report st1 = format_report st2 ->
  words st1 = words st2
  /\ characters st1 = characters st2
  /\ characters_no_spaces st1 = characters_no_spaces st2
  /\ sentences st1 = sentences st2
  /\ (most_common_words st1 = [] <-> most_common_words st2 = []).
Proof.
  rewrite !format_report_flat. intros E.
  assert (Hnl : forall r : str, [] = ([] : str) \/ hd_error ([NEWLINE] ++ r) = Some NEWLINE)
    by (intros; now right).
  apply app_inv_head in E.
  apply digits_prefix_inj in E as [E1 E];
    try apply str_of_nat_digits; try (now right).
  apply app_inv_head, app_inv_head in E.
  apply digits_prefix_inj in E as [E2 E];
    try apply str_of_nat_digits; try (now right).
  apply app_inv_head, app_inv_head in E.
  apply digits_prefix_inj in E as [E3 E];
    try apply str_of_nat_digits; try (now right).
  apply app_inv_head, app_inv_head in E.
  apply digits_prefix_inj in E as [E4 E]; try apply str_of_nat_digits.
  - apply str_of_nat_inj in E1, E2, E3, E4.
    repeat (split; [assumption|]).
    destruct (most_common_words st1), (most_common_words st2);
      try discriminate; split; congruence.
  - destruct (most_common_words st1); [now left | now right].
  - destruct (most_common_words st2); [now left | now right].
Qed.

(** ** Normal forms *)

(** X9.  Lowercasing and stripping a word a second time changes
    nothing. *)
Theorem normalize_idempotent (w : str) :
  lowering_stable -> normalize (normalize w) = normalize w.
Proof.
  intros Hst. unfold normalize at 1.
  rewrite (normalize_lowercase w Hst).
  destruct (strip_unquoted (str_lower w)) as [Hh Hl].
  now apply strip_id.
Qed.

(** ** Blank texts *)

Lemma terminator_not_space c : terminator c = true -> isspace c = false.
Proof.
  intros H. destruct (is_ascii c) eqn:Ha.
  - pose proof (ascii_check (fun c => implb (terminator c) (negb (isspace c)))
                  eq_refl c Ha) as Hc.
    cbv beta in Hc. rewrite H in Hc. simpl in Hc. now apply negb_true_iff.
  - unfold terminator, is_ascii in *. code_point_cases.
Qed.

Lemma space_not_word c :
  spaces_not_alnum -> isspace c = true -> is_word c = false.
Proof.
  intros Hdb H. destruct (is_ascii c) eqn:Ha.
  - assert (Hc : implb (isspace c) (negb (is_word c)) = true)
      by (apply (ascii_check (fun c => implb (isspace c) (negb (is_word c))));
          [vm_compute; reflexivity | assumption]).
    rewrite H in Hc. simpl in Hc. now apply negb_true_iff in Hc.
  - unfold isspace in H. rewrite Ha in H.
    unfold is_word, isalnum. rewrite Ha, (Hdb c Ha H).
    unfold UNDERSCORE, is_ascii in *. code_point_cases.
Qed.

Lemma filter_nonspace_nil s :
  filter (fun c => negb (isspace c)) s = [] <-> blank s = true.
Proof.
  unfold blank. induction s as [|c r IH]; simpl; [tauto|].
  destruct (isspace c); simpl; [exact IH | split; discriminate].
Qed.

(** X10.  No character is left when the whitespace is removed exactly
    when the text is empty or all whitespace; such a text has no
    sentence, and no word either, as no whitespace character is a word
    character. *)
Theorem blank_text (text : str) :
  spaces_not_alnum ->
  exists st,
    analyze_text text = Some st
    /\ (characters_no_spaces st = 0 <-> blank text = true)
    /\ (blank text = true ->
        st = mkStats 0 (length text) 0 0 []).
Proof.
  intros Hdb.
  destruct (findall_word_spans text) as (sp & Ew0 & _).
  destruct (re_sub_squeeze isspace text) as (segs & _ & Es & Ef).
  destruct (re_split_segments terminator text) as (parts & Et & Hsplit).
  destruct (analyze_text_unfold text) as (found & sq & parts' & Ew & Es' & Et' & Ea).
  fold space_pattern in Es. fold terminator_pattern in Et.
  rewrite Es in Es'. injection Es' as <-.
  rewrite Et in Et'. injection Et' as <-.
  eexists. split; [exact Ea|]. cbn [characters_no_spaces].
  assert (Hzero : length (concat segs) = 0 <-> blank text = true).
  { rewrite Ef, length_zero_iff_nil. apply filter_nonspace_nil. }
  split; [exact Hzero|]. intros Hb.
  assert (Hfound : found = []).
  { assert (E : re_findall word_pattern text = Some []).
    { apply findall_none_iff. unfold blank in Hb.
      rewrite forallb_forall in *. intros c Hc.
      now rewrite (space_not_word c Hdb (Hb c Hc)). }
    congruence. }
  assert (Hparts : parts = [text]).
  { apply (split_on_unique _ _ _ Hsplit). constructor.
    unfold free_of, blank in *. rewrite forallb_forall in *. intros c Hc.
    destruct (terminator c) eqn:Ht; [|reflexivity].
    apply terminator_not_space in Ht. rewrite (Hb c Hc) in Ht. discriminate. }
  subst found parts. simpl. rewrite Hb. simpl.
  f_equal. f_equal. now apply Hzero.
Qed.

(** ** main *)



(** ** The words that are not among the top words *)

Lemma descending_app l1 l2 a b :
  descending (l1 ++ l2) -> In a l1 -> In b l2 -> snd b <= snd a.
Proof.
  intros H Ha Hb. apply (before_sorted (l1 ++ l2)); [assumption|].
  apply before_app. right. left. now split.
Qed.

(** X12.  A word that is not among the top words was left out for a
    reason: there are five top words, none of them has a smaller count,
    and those with the same count occur earlier in the text. *)
Theorem top_words_selection (text : str) :
  exists found st,
    re_findall word_pattern text = Some found
    /\ analyze_text text = Some st
    /\ forall w,
         In w (map normalize found) ->
         ~ In w (keys (most_common_words st)) ->
         length (most_common_words st) = 5
         /\ forall a, In a (most_common_words st) ->
              count_occ str_dec (map normalize found) w <= snd a
              /\ (count_occ str_dec (map normalize found) w = snd a ->
                  index_of (fst a) (map normalize found)
                    < index_of w (map normalize found)).
Proof.
  destruct (analyze_text_unfold text) as (found & sq & parts & Ew & _ & _ & Ea).
  exists found. eexists. split; [exact Ew|]. split; [exact Ea|].
  cbn [most_common_words]. set (ws := map normalize found).
  unfold most_common. set (l := sorted_desc (Counter ws)).
  intros w Hw Hout.
  apply keys_Counter_In in Hw. unfold keys in Hw.
  apply in_map_iff in Hw as ([w' n] & Efst & Hin). simpl in Efst. subst w'.
  pose proof (Counter_count _ _ _ Hin) as En.
  apply (Permutation_in _ (sorted_desc_perm (Counter ws))) in Hin. fold l in Hin.
  rewrite <- (firstn_skipn 5 l) in Hin. apply in_app_or in Hin as [Hin|Hin].
  { exfalso. apply Hout. unfold keys. now apply (in_map fst) in Hin. }
  assert (Hdesc : descending (firstn 5 l ++ skipn 5 l)).
  { rewrite firstn_skipn. apply sorted_desc_sorted. }
  split.
  - rewrite length_firstn. apply Nat.min_l.
    destruct (Nat.le_gt_cases 5 (length l)) as [|Hlt]; [assumption|].
    rewrite skipn_all2 in Hin by lia. destruct Hin.
  - intros a Ha. rewrite <- En. split.
    + exact (descending_app _ _ a (w, n) Hdesc Ha Hin).
    + intros E.
      assert (Hb : before a (w, n) l).
      { rewrite <- (firstn_skipn 5 l). apply before_app. right. left. now split. }
      apply sorted_desc_stable in Hb; [|now rewrite <- E].
      apply (before_map fst) in Hb. now apply keys_Counter_order in Hb.
Qed.

(** ** Character counts of a concatenation *)

Lemma re_sub_space_filter text sq :
  re_sub space_pattern [] text = Some sq ->
  sq = filter (fun c => negb (isspace c)) text.
Proof.
  destruct (re_sub_squeeze isspace text) as (segs & _ & Es & Ef).
  fold space_pattern in Es. rewrite Es. intros [= <-]. exact Ef.
Qed.

(** X13.  The character counts of a concatenation are the sums of the
    character counts of its parts, with and without whitespace. *)
Theorem characters_additive (a b : str) :
  exists sa sb sab,
    analyze_text a = Some sa /\ analyze_text b = Some sb
    /\ analyze_text (a ++ b) = Some sab
    /\ characters sab = characters sa + characters sb
    /\ characters_no_spaces sab
       = characters_no_spaces sa + characters_no_spaces sb.
Proof.
  destruct (analyze_text_unfold a) as (? & qa & ? & _ & Esa & _ & Ea).
  destruct (analyze_text_unfold b) as (? & qb & ? & _ & Esb & _ & Eb).
  destruct (analyze_text_unfold (a ++ b)) as (? & qab & ? & _ & Esab & _ & Eab).
  apply re_sub_space_filter in Esa, Esb, Esab. subst qa qb qab.
  do 3 eexists. split; [exact Ea|]. split; [exact Eb|]. split; [exact Eab|].
  simpl. rewrite filter_app, !length_app. split; reflexivity.
Qed.

End TextAnalyzer.

(** * The program on the Latin-1 supplement *)

Lemma latin1_lower_nonempty : lowering_nonempty latin1_lower.
Proof.
  intros pre c post _. unfold latin1_lower.
  destruct (between 192 222 c && negb (c =? 215)%N); discriminate.
Qed.

Lemma latin1_lower_quote_free : lowering_quote_free latin1_lower.
Proof.
  intros pre c post d Hc Hd.
  unfold latin1_lower, is_quote, is_ascii, between, APOSTROPHE, QUOTATION in *.
  code_point_cases; destruct Hd as [<-|[]]; code_point_cases.
Qed.

Lemma latin1_lower_stable : lowering_stable latin1_lower.
Proof.
  intros pre c post d Hc Hd pre' post'.
  unfold lower_char, latin1_lower, is_ascii, ascii_lower, between in *.
  code_point_cases; destruct Hd as [<-|[]]; code_point_cases.
Qed.

Local Abbreviation latin1_analyze :=
  (analyze_text latin1_isalnum latin1_isspace latin1_lower).
Local Abbreviation latin1_findall :=
  (re_findall latin1_isalnum (word_pattern latin1_isalnum)).

(** [L'Été 'l'été' -ÉTÉ-] *)
Local Abbreviation ete :=
  (lit "L'" ++ [201; 116; 233] ++ lit " 'l'" ++ [233; 116; 233]
     ++ lit "' -" ++ [201; 84; 201] ++ lit "-")%N.

Example findall_ete :
  latin1_findall ete
  = Some [lit "L'" ++ [201; 116; 233]; lit "l'" ++ [233; 116; 233];
          [201; 84; 201]]%N.
Proof. reflexivity. Qed.

Example analyze_ete :
  latin1_analyze ete
  = Some (mkStats 3 19 17 1
            [(lit "l'" ++ [233; 116; 233]%N, 2); ([233; 116; 233]%N, 1)]).
Proof. reflexivity. Qed.

(** A word is not always a whole run of word characters, apostrophes and
    hyphens: the apostrophes and hyphens at the ends of such a run are
    outside the word boundaries, and a run without a word character has no
    word in it. *)
Example findall_quoted :
  latin1_findall (lit "'hello' --a a'- x-'y '-' 'tis")
  = Some [lit "hello"; lit "a"; lit "a"; lit "x-'y"; lit "tis"].
Proof. reflexivity. Qed.

Example analyze_hello :
  latin1_analyze (lit "Hello, world! Hello again.")
  = Some (mkStats 4 26 23 2
            [(lit "hello", 2); (lit "world", 1); (lit "again", 1)]).
Proof. reflexivity. Qed.

Example analyze_whitespace :
  latin1_analyze [32; 32; 32; 10; 9; 32]%N = Some (mkStats 0 6 0 0 []).
Proof. reflexivity. Qed.

Example analyze_six_words :
  option_map most_common_words
    (latin1_analyze (lit "c b a a b d e f f"))
  = Some [(lit "b", 2); (lit "a", 2); (lit "f", 2); (lit "c", 1); (lit "d", 1)].
Proof. reflexivity. Qed.

Example format_hello :
  option_map format_report
    (latin1_analyze (lit "Hello, world! Hello again."))
  = Some (lit "Words: 4" ++ [NEWLINE]
          ++ lit "Characters (including spaces): 26" ++ [NEWLINE]
          ++ lit "Characters (no spaces): 23" ++ [NEWLINE]
          ++ lit "Sentences: 2" ++ [NEWLINE]
          ++ lit "Top words: hello(2), world(1), again(1)").
Proof. reflexivity. Qed.

Example format_empty :
  option_map format_report (latin1_analyze [])
  = Some (lit "Words: 0" ++ [NEWLINE]
          ++ lit "Characters (including spaces): 0" ++ [NEWLINE]
          ++ lit "Characters (no spaces): 0" ++ [NEWLINE]
          ++ lit "Sentences: 0").
Proof. reflexivity. Qed.

(** The top words of [L'Été 'l'été' -ÉTÉ-] have no capital letter, are
    left as they are by lowercasing and have no quote at their ends. *)
Lemma top_words_normalized_ete :
  lowering_stable latin1_lower /\
  exists found st,
    latin1_findall ete = Some found
    /\ latin1_analyze ete = Some st
    /\ forall w c, In (w, c) (most_common_words st) ->
         no_ascii_capital w /\ Forall (lower_fixed latin1_lower) w
         /\ lowercase latin1_lower w /\ unquoted w
         /\ exists t, In t found
                      /\ w = strip is_quote (str_lower latin1_lower t).
Proof.
  split; [exact latin1_lower_stable|].
  exact (top_words_normalized latin1_isalnum latin1_isspace latin1_lower ete
           latin1_lower_stable).
Defined.

(** C7 as it was stated fails: the text [ℂ7], U+2102 and the digit 7, is
    a word, so its only top word, and U+2102 is an uppercase letter that
    lowercasing leaves as it is. *)
Lemma top_word_with_uppercase :
  lowering_stable latin1_lower /\
  analyze_text letterlike_isalnum latin1_isspace latin1_lower
    [DOUBLE_STRUCK_C; 55%N]
  = Some (mkStats 1 2 2 1 [([DOUBLE_STRUCK_C; 55%N], 1)]) /\
  ~ (forall st w c,
       analyze_text letterlike_isalnum latin1_isspace latin1_lower
         [DOUBLE_STRUCK_C; 55%N] = Some st ->
       In (w, c) (most_common_words st) ->
       no_uppercase letterlike_isupper w /\ unquoted w).
Proof.
  split; [exact latin1_lower_stable|]. split; [reflexivity|].
  intros H.
  destruct (H _ [DOUBLE_STRUCK_C; 55%N] 1 eq_refl (or_introl eq_refl)) as [Hu _].
  discriminate Hu.
Qed.

(** The words of [L'Été 'l'été' -ÉTÉ-] start and end with a word
    character and need no stripping. *)
Lemma tokens_need_no_stripping_ete :
  lowering_nonempty latin1_lower /\ lowering_quote_free latin1_lower /\
  exists found,
    latin1_findall ete = Some found
    /\ forall t, In t found ->
         opt_word latin1_isalnum (hd_error t) = true
         /\ opt_word latin1_isalnum (last_char None t) = true
         /\ hd_error t <> Some APOSTROPHE /\ hd_error t <> Some HYPHEN
         /\ last_char None t <> Some APOSTROPHE
         /\ last_char None t <> Some HYPHEN
         /\ forallb (word_class latin1_isalnum) t = true
         /\ strip is_quote t = t
         /\ normalize latin1_lower t = str_lower latin1_lower t.
Proof.
  split; [exact latin1_lower_nonempty|].
  split; [exact latin1_lower_quote_free|].
  exact (tokens_need_no_stripping latin1_isalnum latin1_lower ete
           latin1_lower_nonempty latin1_lower_quote_free).
Defined.

(** * Further properties, on examples *)

Lemma latin1_spaces_not_alnum : spaces_not_alnum latin1_isalnum latin1_isspace.
Proof.
  intros c _. unfold latin1_isspace.
  destruct (N.eqb_spec c 133) as [->|]; [reflexivity|].
  destruct (N.eqb_spec c 160) as [->|]; [reflexivity | discriminate].
Qed.

(** [it's] and [a well-known fact], joined by a space. *)
Lemma words_across_separator_space :
  word_class latin1_isalnum 32%N = false /\
  exists wa wb sa sb sab,
    latin1_findall (lit "it's") = Some wa
    /\ latin1_findall (lit "a well-known fact") = Some wb
    /\ latin1_findall (lit "it's" ++ 32%N :: lit "a well-known fact")
       = Some (wa ++ wb)
    /\ latin1_analyze (lit "it's") = Some sa
    /\ latin1_analyze (lit "a well-known fact") = Some sb
    /\ latin1_analyze (lit "it's" ++ 32%N :: lit "a well-known fact") = Some sab
    /\ words sab = words sa + words sb.
Proof.
  split; [reflexivity|].
  exact (words_across_separator latin1_isalnum latin1_isspace latin1_lower
           (lit "it's") (lit "a well-known fact") 32%N eq_refl).
Defined.

(** [One. Two] and [ Three], joined by an exclamation mark. *)
Lemma sentences_across_terminator_bang :
  terminator 33%N = true /\
  exists sa sb sab sat,
    latin1_analyze (lit "One. Two") = Some sa
    /\ latin1_analyze (lit " Three") = Some sb
    /\ latin1_analyze (lit "One. Two" ++ 33%N :: lit " Three") = Some sab
    /\ latin1_analyze (lit "One. Two" ++ [33%N]) = Some sat
    /\ sentences sa
       = length (filter (fun s => negb (blank latin1_isspace s))
                   (split_each terminator (lit "One. Two")))
    /\ sentences sab = sentences sa + sentences sb
    /\ sentences sat = sentences sa.
Proof.
  split; [reflexivity|].
  exact (sentences_across_terminator latin1_isalnum latin1_isspace latin1_lower
           (lit "One. Two") (lit " Three") 33%N eq_refl).
Defined.

(** [Hello World] and [hELLO wORLD]. *)
Lemma case_insensitive_hello :
  forallb is_ascii (lit "Hello World") = true /\
  forallb is_ascii (lit "hELLO wORLD") = true /\
  str_lower latin1_lower (lit "Hello World")
    = str_lower latin1_lower (lit "hELLO wORLD") /\
  latin1_analyze (lit "Hello World") = latin1_analyze (lit "hELLO wORLD") /\
  latin1_analyze (str_lower latin1_lower (lit "Hello World"))
    = latin1_analyze (lit "Hello World").
Proof.
  split; [reflexivity|]. split; [reflexivity|]. split; [reflexivity|].
  exact (case_insensitive latin1_isalnum latin1_isspace latin1_lower
           (lit "Hello World") (lit "hELLO wORLD") eq_refl eq_refl eq_refl).
Defined.

(** The report of [Hello, world! Hello again.] has five lines. *)
Lemma ascii_report_lines_hello :
  forallb is_ascii (lit "Hello, world! Hello again.") = true /\
  exists st,
    latin1_analyze (lit "Hello, world! Hello again.") = Some st
    /\ (forall w c, In (w, c) (most_common_words st) ->
                    Forall (plain_char latin1_isalnum) w)
    /\ count_occ N.eq_dec (format_report st) NEWLINE
       = if words st =? 0 then 3 else 4.
Proof.
  split; [reflexivity|].
  exact (ascii_report_lines latin1_isalnum latin1_isspace latin1_lower
           (lit "Hello, world! Hello again.") eq_refl).
Defined.

(** Two records with the same report and different top words: the
    report determines the counts, not the top words. *)
Lemma report_determines_counts_ambiguous :
  format_report (mkStats 2 3 2 1 [(lit "a(1), b", 1)])
    = format_report (mkStats 2 3 2 1 [(lit "a", 1); (lit "b", 1)]) /\
  words (mkStats 2 3 2 1 [(lit "a(1), b", 1)])
    = words (mkStats 2 3 2 1 [(lit "a", 1); (lit "b", 1)]) /\
  characters (mkStats 2 3 2 1 [(lit "a(1), b", 1)])
    = characters (mkStats 2 3 2 1 [(lit "a", 1); (lit "b", 1)]) /\
  characters_no_spaces (mkStats 2 3 2 1 [(lit "a(1), b", 1)])
    = characters_no_spaces (mkStats 2 3 2 1 [(lit "a", 1); (lit "b", 1)]) /\
  sentences (mkStats 2 3 2 1 [(lit "a(1), b", 1)])
    = sentences (mkStats 2 3 2 1 [(lit "a", 1); (lit "b", 1)]) /\
  (most_common_words (mkStats 2 3 2 1 [(lit "a(1), b", 1)]) = []
   <-> most_common_words (mkStats 2 3 2 1 [(lit "a", 1); (lit "b", 1)]) = []).
Proof.
  split; [reflexivity|].
  exact (report_determines_counts
           (mkStats 2 3 2 1 [(lit "a(1), b", 1)])
           (mkStats 2 3 2 1 [(lit "a", 1); (lit "b", 1)]) eq_refl).
Defined.

(** ['ÉTÉ'] *)
Lemma normalize_idempotent_ete :
  lowering_stable latin1_lower /\
  normalize latin1_lower (normalize latin1_lower [39; 201; 84; 201; 39]%N)
    = normalize latin1_lower [39; 201; 84; 201; 39]%N.
Proof.
  split; [exact latin1_lower_stable|].
  exact (normalize_idempotent latin1_lower [39; 201; 84; 201; 39]%N
           latin1_lower_stable).
Defined.

(** A space, a no-break space, a newline and a tab. *)
Lemma blank_text_spaces :
  spaces_not_alnum latin1_isalnum latin1_isspace /\
  exists st,
    latin1_analyze [32; 160; 10; 9]%N = Some st
    /\ (characters_no_spaces st = 0
        <-> blank latin1_isspace [32; 160; 10; 9]%N = true)
    /\ (blank latin1_isspace [32; 160; 10; 9]%N = true ->
        st = mkStats 0 (length [32; 160; 10; 9]%N) 0 0 []).
Proof.
  split; [exact latin1_spaces_not_alnum|].
  exact (blank_text latin1_isalnum latin1_isspace latin1_lower
           [32; 160; 10; 9]%N latin1_spaces_not_alnum).
Defined.

Example main_empty_text :
  main latin1_isalnum latin1_isspace latin1_lower
    (mkArgs (Some []) None) (mkWorld (fun _ => None) (Some (lit "Hi there.")))
  = Some (PROMPT ++ lit "Words: 2" ++ [NEWLINE]
          ++ lit "Characters (including spaces): 9" ++ [NEWLINE]
          ++ lit "Characters (no spaces): 8" ++ [NEWLINE]
          ++ lit "Sentences: 1" ++ [NEWLINE]
          ++ lit "Top words: hi(1), there(1)" ++ [NEWLINE], Finished).
Proof. reflexivity. Qed.
